(** * Fixed-window rate limiter of [src/middleware/rate-limit.middleware.ts]

    A shallow embedding of the [rateLimit] middleware and of its helper
    [inMemoryRateLimit], followed by the properties of the admission
    decision.

    Conventions of the embedding.
    - JavaScript numbers that the limiter handles (instants in milliseconds,
      counters, the configured limit) are integers, modelled by [Z].
    - [Date.now()] is an input of each request: the instant read on line 68
      (shared path) and the instant read on line 128 (local path).
    - [String(n)] on an integer is its decimal rendering, stdpp's [pretty].
    - The module-level [inMemoryStore] is a [gmap string entry]; the Redis
      server is a [gmap] from keys to a value with an optional deadline.
      Redis holds decimal renderings of integers, written with [String] and
      read back with [parseInt]; the model keeps the integer.
    - The Redis server reads the same clock as the request, executes the
      commands of a handler in the order in which they are issued, and a
      command that fails leaves the server unchanged. [createClient] is
      taken not to throw. *)

From Stdlib Require Import ZArith Lia.
From stdpp Require Import gmap strings list fin_maps pretty.

Local Open Scope Z_scope.

(** ** Hono's [Context]: request headers read, response headers written *)

Record Context := mkContext {
  req_headers : gmap string string;
  res_headers : gmap string string
}.

(** [c.req.header(name)] *)
Definition req_header (name : string) (c : Context) : option string :=
  req_headers c !! name.

(** [c.header(name, value)] *)
Definition header (name value : string) (c : Context) : Context :=
  {| req_headers := req_headers c;
     res_headers := <[name := value]> (res_headers c) |}.

(** [String(n)] for an integer [n] *)
Definition String_of (n : Z) : string := pretty n.

(** The three [c.header] calls that every admitting branch performs. *)
Definition set_rate_headers (max remaining reset : Z) (c : Context) : Context :=
  header "X-RateLimit-Reset" (String_of reset)
    (header "X-RateLimit-Remaining" (String_of remaining)
       (header "X-RateLimit-Limit" (String_of max) c)).

(** What the middleware returns: [next()] or [handler(c, next)], with the
    context as it stands at that point. *)
Inductive outcome :=
| CallNext (c : Context)
| CallHandler (c : Context).

Definition admitted (o : outcome) : bool :=
  match o with CallNext _ => true | CallHandler _ => false end.

Definition outcome_ctx (o : outcome) : Context :=
  match o with CallNext c => c | CallHandler c => c end.

(** ** The in-memory store *)

Record entry := mkEntry { count : Z; resetTime : Z }.

(** The clean-up loop of lines 131-135: every entry with
    [now > data.resetTime] is deleted. *)
Definition sweep (now : Z) (s : gmap string entry) : gmap string entry :=
  filter (λ kv : string * entry, ¬ (now > resetTime kv.2)) s.

Definition fresh_entry (now windowMs : Z) : entry :=
  {| count := 1; resetTime := now + windowMs |}.

(** [inMemoryRateLimit(key, windowMs, max, c, next, handler)], with the
    instant [now] read on line 128 and the store passed explicitly. *)
Definition inMemoryRateLimit (key : string) (windowMs max : Z) (now : Z)
    (c : Context) (s : gmap string entry) : gmap string entry * outcome :=
  let s1 := sweep now s in
  match s1 !! key with
  | None =>
      (<[key := fresh_entry now windowMs]> s1,
       CallNext (set_rate_headers max (max - 1) (now + windowMs) c))
  | Some data =>
      if decide (now > resetTime data) then
        (<[key := fresh_entry now windowMs]> s1,
         CallNext (set_rate_headers max (max - 1) (now + windowMs) c))
      else
        let data' := {| count := count data + 1; resetTime := resetTime data |} in
        let s2 := <[key := data']> s1 in
        if decide (count data' > max) then (s2, CallHandler c)
        else (s2, CallNext (set_rate_headers max (Z.max 0 (max - count data'))
                              (resetTime data') c))
  end.

(** ** The Redis server, as the limiter uses it *)

Record rval := mkRval { rv_value : Z; rv_deadline : option Z }.

(** A key with a deadline is gone once the deadline is reached. *)
Definition rv_live (t : Z) (v : rval) : bool :=
  match rv_deadline v with
  | None => true
  | Some d => t <? d
  end.

(** [GET key]: [null] for an absent or lapsed key. *)
Definition redis_get (t : Z) (k : string) (r : gmap string rval) : option Z :=
  match r !! k with
  | Some v => if rv_live t v then Some (rv_value v) else None
  | None => None
  end.

(** [SET key value]: stores the value and discards any time to live. *)
Definition redis_set (k : string) (v : Z) (r : gmap string rval) : gmap string rval :=
  <[k := {| rv_value := v; rv_deadline := None |}]> r.

(** [EXPIRE key seconds] at instant [t]. *)
Definition redis_expire (t : Z) (k : string) (secs : Z) (r : gmap string rval)
    : gmap string rval :=
  match r !! k with
  | Some v =>
      if rv_live t v then
        if secs <=? 0 then delete k r
        else <[k := {| rv_value := rv_value v;
                       rv_deadline := Some (t + secs * 1000) |}]> r
      else r
  | None => r
  end.

(** [Math.ceil(n / 1000)] on an integer [n] *)
Definition ceil_div_1000 (n : Z) : Z := - ((- n) / 1000).

(** The reset key of line 69 *)
Definition resetTimeKey (key : string) : string := key +:+ ":reset".

(** ** What one request brings with it *)

(** Besides its context, a request fixes what the environment answers
    while it is handled: the two clock readings, whether the Redis client
    reports [isReady], and which of the Redis commands it issues fail
    (numbered in the order in which they are issued). A failing command
    has no effect on the server and rejects its promise. *)
Record Request := mkRequest {
  rq_ctx : Context;
  rq_now : Z;
  rq_now_local : Z;
  rq_isReady : bool;
  rq_fails : nat → bool
}.

(** A command that has been issued takes effect unless it fails. *)
Definition issue (fails : nat → bool) (i : nat)
    (cmd : gmap string rval → gmap string rval) (r : gmap string rval)
    : gmap string rval :=
  if fails i then r else cmd r.

(** Lines 72-75: the two [GET]s under [Promise.all]. [None] stands for the
    rejected promise. *)
Definition redis_read (key : string) (now : Z) (fails : nat → bool)
    (r : gmap string rval) : option (option Z * option Z) :=
  if fails 0%nat || fails 1%nat then None
  else Some (redis_get now key r, redis_get now (resetTimeKey key) r).

(** Lines 77-99, resumed with what the two [GET]s returned. The second
    component is [None] when a command threw, that is when control goes to
    the [catch] of line 100. *)
Definition redis_decide (key : string) (windowMs max : Z) (now : Z)
    (fails : nat → bool) (c : Context) (obs : option Z * option Z)
    (r : gmap string rval) : gmap string rval * option outcome :=
  let count := obs.1 in
  let storedResetTime := obs.2 in
  let resetTime :=
    match storedResetTime with Some v => v | None => now + windowMs end in
  if decide (now > resetTime) then
    let r1 := issue fails 2 (redis_set key 1) r in
    let r2 := issue fails 3 (redis_set (resetTimeKey key) (now + windowMs)) r1 in
    let r3 := issue fails 4 (redis_expire now key (ceil_div_1000 windowMs)) r2 in
    let r4 := issue fails 5
                (redis_expire now (resetTimeKey key) (ceil_div_1000 windowMs)) r3 in
    if fails 2%nat || fails 3%nat || fails 4%nat || fails 5%nat then (r4, None)
    else (r4, Some (CallNext (set_rate_headers max (max - 1) resetTime c)))
  else
    let newCount := match count with Some v => v + 1 | None => 1 end in
    let remainingRequests := Z.max 0 (max - newCount) in
    if decide (newCount > max) then (r, Some (CallHandler c))
    else if fails 2%nat then (r, None)
    else (redis_set key newCount r,
          Some (CallNext (set_rate_headers max remainingRequests resetTime c))).

(** The shared path run without interruption. *)
Definition redisRateLimit (key : string) (windowMs max : Z) (now : Z)
    (fails : nat → bool) (c : Context) (r : gmap string rval)
    : gmap string rval * option outcome :=
  match redis_read key now fails r with
  | None => (r, None)
  | Some obs => redis_decide key windowMs max now fails c obs r
  end.

(** ** Configuration *)

Record Env := mkEnv {
  RATE_LIMIT_WINDOW_MS : Z;
  RATE_LIMIT_MAX_REQUESTS : Z;
  REDIS_URL : option string
}.

(** [RateLimitOptions]; the [handler] option only changes what the
    rejecting continuation answers and is left out. *)
Record RateLimitOptions := mkOptions {
  opt_windowMs : option Z;
  opt_max : option Z;
  opt_keyGenerator : option (Context → string);
  opt_useRedis : option bool
}.

(** [a || b] on an optional number: [undefined] and [0] are falsy. *)
Definition num_or (a : option Z) (b : Z) : Z :=
  match a with
  | Some v => if decide (v = 0) then b else v
  | None => b
  end.

(** [a || b] on an optional string: [undefined] and [''] are falsy. *)
Definition str_or (a : option string) (b : string) : string :=
  match a with
  | Some v => if decide (v = "") then b else v
  | None => b
  end.

Definition truthy_str (a : option string) : bool :=
  match a with
  | Some v => bool_decide (v ≠ "")
  | None => false
  end.

(** Lines 29-32 *)
Definition defaultKeyGenerator (c : Context) : string :=
  "rate-limit:" +:+ str_or (req_header "x-forwarded-for" c) "unknown".

(** What the closure returned by [rateLimit(options)] captures. *)
Record Limiter := mkLimiter {
  l_windowMs : Z;
  l_max : Z;
  l_keyGenerator : Context → string;
  l_redisClient : bool
}.

(** Lines 22-58 *)
Definition rateLimit (env : Env) (options : RateLimitOptions) : Limiter :=
  {| l_windowMs := num_or (opt_windowMs options) (RATE_LIMIT_WINDOW_MS env);
     l_max := num_or (opt_max options) (RATE_LIMIT_MAX_REQUESTS env);
     l_keyGenerator := default defaultKeyGenerator (opt_keyGenerator options);
     l_redisClient :=
       default false (opt_useRedis options) && truthy_str (REDIS_URL env) |}.

(** ** The middleware *)

Record State := mkState {
  inMemoryStore : gmap string entry;
  redis : gmap string rval
}.

(** The two calls of [inMemoryRateLimit] on lines 103 and 107. *)
Definition local_path (L : Limiter) (rq : Request) (s : gmap string entry)
    (r : gmap string rval) : State * outcome :=
  let res := inMemoryRateLimit (l_keyGenerator L (rq_ctx rq)) (l_windowMs L)
               (l_max L) (rq_now_local rq) (rq_ctx rq) s in
  ({| inMemoryStore := res.1; redis := r |}, res.2).

(** Lines 60-116: one request through the middleware. *)
Definition handle (L : Limiter) (rq : Request) (st : State) : State * outcome :=
  let key := l_keyGenerator L (rq_ctx rq) in
  if l_redisClient L && rq_isReady rq then
    match redisRateLimit key (l_windowMs L) (l_max L) (rq_now rq) (rq_fails rq)
            (rq_ctx rq) (redis st) with
    | (r', Some o) => ({| inMemoryStore := inMemoryStore st; redis := r' |}, o)
    | (r', None) => local_path L rq (inMemoryStore st) r'
    end
  else local_path L rq (inMemoryStore st) (redis st).

(** Requests handled one after the other. *)
Fixpoint run (L : Limiter) (rqs : list Request) (st : State)
    : State * list outcome :=
  match rqs with
  | [] => (st, [])
  | rq :: rqs' =>
      let res := handle L rq st in
      let rest := run L rqs' res.1 in
      (rest.1, res.2 :: rest.2)
  end.

(** ** Requests in flight together *)

(** The shared path suspends at the [await] of line 72; the local path has
    no [await] before its decision. A handler is therefore either not yet
    started, suspended with its two [GET]s issued, or finished. *)
Inductive task :=
| Arrived (rq : Request)
| AwaitingReads (rq : Request) (obs : option Z * option Z)
| Finished (o : outcome).

Definition step_task (L : Limiter) (t : task) (st : State) : State * task :=
  match t with
  | Arrived rq =>
      if l_redisClient L && rq_isReady rq then
        match redis_read (l_keyGenerator L (rq_ctx rq)) (rq_now rq)
                (rq_fails rq) (redis st) with
        | Some obs => (st, AwaitingReads rq obs)
        | None =>
            let res := local_path L rq (inMemoryStore st) (redis st) in
            (res.1, Finished res.2)
        end
      else
        let res := local_path L rq (inMemoryStore st) (redis st) in
        (res.1, Finished res.2)
  | AwaitingReads rq obs =>
      match redis_decide (l_keyGenerator L (rq_ctx rq)) (l_windowMs L) (l_max L)
              (rq_now rq) (rq_fails rq) (rq_ctx rq) obs (redis st) with
      | (r', Some o) =>
          ({| inMemoryStore := inMemoryStore st; redis := r' |}, Finished o)
      | (r', None) =>
          let res := local_path L rq (inMemoryStore st) r' in
          (res.1, Finished res.2)
      end
  | Finished o => (st, Finished o)
  end.

(** The event loop resumes the handlers in the order given by [sched]. *)
Fixpoint run_schedule (L : Limiter) (sched : list nat) (st : State)
    (ts : list task) : State * list task :=
  match sched with
  | [] => (st, ts)
  | i :: sched' =>
      match ts !! i with
      | Some t =>
          let res := step_task L t st in
          run_schedule L sched' res.1 (<[i := res.2]> ts)
      | None => run_schedule L sched' st ts
      end
  end.

Definition task_admitted (t : task) : bool :=
  match t with
  | Finished o => admitted o
  | _ => false
  end.

(** ** Vocabulary of the statements *)

(** Which path a request takes through [handle]. *)
Definition uses_local (L : Limiter) (rq : Request) : Prop :=
  l_redisClient L && rq_isReady rq = false.

Definition uses_redis (L : Limiter) (rq : Request) : Prop :=
  l_redisClient L = true ∧ rq_isReady rq = true ∧ ∀ i, rq_fails rq i = false.

Definition every_call_fails (rq : Request) : Prop := ∀ i, rq_fails rq i = true.

(** The same limiter configured without Redis. *)
Definition local_only (L : Limiter) : Limiter :=
  {| l_windowMs := l_windowMs L; l_max := l_max L;
     l_keyGenerator := l_keyGenerator L; l_redisClient := false |}.

(** The decisions of a window that already holds [n] requests: the
    request at position [i] (from 0) brings the count to [n + i + 1] and
    is admitted exactly when that count is at most [max]. *)
Definition window_decisions (max n : Z) (len : nat) : list bool :=
  (λ i : nat, bool_decide (n + Z.of_nat i + 1 <= max)) <$> seq 0 len.

(** The request at position [i] (from 0) is admitted exactly when
    [i + 1 <= max], and the number of admitted requests is [max], or all
    of them when fewer than [max] were made. *)
Definition admits_up_to (max : Z) (outs : list outcome) : Prop :=
  (∀ (i : nat) (o : outcome),
     outs !! i = Some o → admitted o = bool_decide (Z.of_nat i + 1 <= max)) ∧
  length (filter (λ o, admitted o = true) outs) =
    (Z.to_nat max `min` length outs)%nat.

(** Requests of one window on the local path, from a record that already
    counts [n] requests and resets at [R]: the exact outcomes. *)
Fixpoint local_window_outcomes (max R n : Z) (rqs : list Request) : list outcome :=
  match rqs with
  | [] => []
  | rq :: rqs' =>
      (if decide (n + 1 > max) then CallHandler (rq_ctx rq)
       else CallNext (set_rate_headers max (Z.max 0 (max - (n + 1))) R (rq_ctx rq)))
      :: local_window_outcomes max R (n + 1) rqs'
  end.

(** The state of a key whose reset key was never written: the counter is
    absent (and [n = 0]) or holds [n] without a time to live. *)
Definition redis_counting (k : string) (n : Z) (r : gmap string rval) : Prop :=
  r !! resetTimeKey k = None ∧
  ((n = 0 ∧ r !! k = None) ∨
   r !! k = Some {| rv_value := n; rv_deadline := None |}).

(** The value stored under [k] in the shared store is at most [max]. *)
Definition counter_bounded (max : Z) (k : string) (r : gmap string rval) : Prop :=
  ∀ v, r !! k = Some v → rv_value v <= max.

(** ** Small inputs used in the examples *)

Definition ctx0 : Context := {| req_headers := ∅; res_headers := ∅ |}.

Definition ctx_from (ip : string) : Context :=
  {| req_headers := {[ "x-forwarded-for" := ip ]}; res_headers := ∅ |}.

Definition no_failure : nat → bool := λ _, false.
Definition all_fail : nat → bool := λ _, true.

(** A request at instant [t] with a working Redis client. *)
Definition request_at (c : Context) (t : Z) : Request :=
  {| rq_ctx := c; rq_now := t; rq_now_local := t;
     rq_isReady := true; rq_fails := no_failure |}.

Definition state0 : State := {| inMemoryStore := ∅; redis := ∅ |}.

Definition env0 : Env :=
  {| RATE_LIMIT_WINDOW_MS := 60000; RATE_LIMIT_MAX_REQUESTS := 100;
     REDIS_URL := Some "redis://localhost:6379" |}.

Definition options_of (w m : Z) (shared : bool) : RateLimitOptions :=
  {| opt_windowMs := Some w; opt_max := Some m;
     opt_keyGenerator := None; opt_useRedis := Some shared |}.

(** The scenario of the specification: [windowLength = 60000], [max = 2],
    key of the client ["k1"]. *)
Definition limiter_local : Limiter := rateLimit env0 (options_of 60000 2 false).
Definition limiter_shared : Limiter := rateLimit env0 (options_of 60000 2 true).
Definition limiter_shared1 : Limiter := rateLimit env0 (options_of 60000 1 true).
Definition k1_at (t : Z) : Request := request_at (ctx_from "k1") t.

(** The same request when every Redis command fails. *)
Definition k1_down_at (t : Z) : Request :=
  {| rq_ctx := ctx_from "k1"; rq_now := t; rq_now_local := t;
     rq_isReady := true; rq_fails := all_fail |}.

(** A limiter whose key generator returns the empty key. *)
Definition limiter_empty_key : Limiter :=
  rateLimit env0 {| opt_windowMs := None; opt_max := None;
                    opt_keyGenerator := Some (λ _, "");
                    opt_useRedis := None |}.

(** Side conditions on concrete inputs, by evaluation. *)
Ltac eval_hyp :=
  lazymatch goal with
  | |- Forall _ [] => apply Forall_nil_2
  | |- Forall _ (_ :: _) => apply Forall_cons_2; [eval_hyp | eval_hyp]
  | |- uses_redis _ _ => split; [reflexivity | split; [reflexivity | intros ?; reflexivity]]
  | |- ∀ _, _ => let d := fresh in let H := fresh in
                 intros d H; vm_compute in H; discriminate H
  | |- _ => first [reflexivity | vm_compute; first [reflexivity | discriminate | lia]]
  end.

Ltac solve_path :=
  repeat lazymatch goal with
    | |- Forall _ (_ :: _) => apply Forall_cons_2
    | |- Forall _ [] => apply Forall_nil_2
    | |- uses_redis _ _ => unfold uses_redis
    | |- uses_local _ _ => unfold uses_local
    | |- _ ∧ _ => split
    | |- ∀ _ : nat, _ => intros ?
    | |- _ = _ => reflexivity
    end.

(** ** Further vocabulary: traces of several keys, tasks, the API router *)

(** Clock readings that never go back, starting no earlier than [lo]. *)
Fixpoint clocks_from (lo : Z) (ts : list Z) : Prop :=
  match ts with
  | [] => True
  | t :: ts' => lo <= t ∧ clocks_from t ts'
  end.

(** The outcomes that a trace gives to the requests of key [k], in order. *)
Definition decisions_for (L : Limiter) (k : string) (rqs : list Request)
    (st : State) : list outcome :=
  (filter (λ p : Request * outcome, l_keyGenerator L (rq_ctx p.1) = k)
     (zip rqs (run L rqs st).2)).*2.

Definition is_finished (t : task) : bool :=
  match t with
  | Finished _ => true
  | _ => false
  end.

(** [rateLimit({ windowMs: 60000, max: 100 })] of [routes/api.router.ts],
    lines 28-34. *)
Definition apiRouter_rateLimit (env : Env) : Limiter :=
  rateLimit env {| opt_windowMs := Some 60000; opt_max := Some 100;
                   opt_keyGenerator := None; opt_useRedis := None |}.

(** Handlers of one key on the local path that all read the clock [t]:
    not yet started or finished, never suspended. *)
Definition local_task (L : Limiter) (k : string) (t : Z) (tk : task) : Prop :=
  match tk with
  | Arrived rq =>
      uses_local L rq ∧ l_keyGenerator L (rq_ctx rq) = k ∧ rq_now_local rq = t
  | AwaitingReads _ _ => False
  | Finished _ => True
  end.

Definition count_finished (ts : list task) : nat :=
  length (filter (λ tk, is_finished tk = true) ts).

Definition count_admitted (ts : list task) : nat :=
  length (filter (λ tk, task_admitted tk = true) ts).

(** What the local store holds for [k] once [n] handlers have finished. *)
Definition window_after (k : string) (t w : Z) (n : nat)
    (s : gmap string entry) : Prop :=
  match n with
  | O => ∀ d, s !! k = Some d → t > resetTime d
  | S _ => s !! k = Some {| count := Z.of_nat n; resetTime := t + w |}
  end.

(** The shape of an outcome of the limiter with limit [max] for the
    context [c]: the rejecting handler with [c] untouched, or [next()]
    with the three headers set on [c]. *)
Definition outcome_shape (max : Z) (c : Context) (o : outcome) : Prop :=
  o = CallHandler c ∨
  ∃ remaining reset,
    o = CallNext (set_rate_headers max remaining reset c) ∧
    (1 <= max → 0 <= remaining).

(** * Authentication and authorization

    [src/services/auth.service.ts] and [src/middleware/auth.middleware.ts].
    [jsonwebtoken]'s [verify] with the configured secret is a parameter:
    it returns the payload of a token, or throws. *)

Module Auth.

Record TokenPayload := mkTokenPayload {
  userId : string;
  email : string;
  roles : list string
}.

(** The context with the variable set by [c.set('user', payload)]. *)
Record AuthContext := mkAuthContext {
  ctx : Context;
  user : option TokenPayload
}.

(** A middleware either calls [next()] or answers with [c.json]. *)
Inductive result :=
| Next (c : AuthContext)
| Json (status : Z) (message : string).

(** [s.startsWith(p)] *)
Fixpoint starts_with (p s : string) : bool :=
  match p, s with
  | EmptyString, _ => true
  | String a p', String b s' => if decide (a = b) then starts_with p' s' else false
  | String _ _, EmptyString => false
  end.

Fixpoint drop_chars (n : nat) (s : string) : string :=
  match n, s with
  | O, _ => s
  | S n', String _ s' => drop_chars n' s'
  | S _, EmptyString => EmptyString
  end.

(** [s.replace(p, '')] for a string pattern [p]: the first occurrence of
    [p] in [s], if any, is removed. *)
Fixpoint remove_first (p s : string) : string :=
  if starts_with p s then drop_chars (String.length p) s
  else match s with
       | EmptyString => EmptyString
       | String a s' => String a (remove_first p s')
       end.

(** [AuthService.hasRoles], lines 50-52 *)
Definition hasRoles (userRoles requiredRoles : list string) : bool :=
  forallb (λ role, bool_decide (role ∈ userRoles)) requiredRoles.

Section Middleware.

(** [verify(token, env.JWT_SECRET)]; [None] when it throws. *)
Variable verify : string → option TokenPayload.

(** [AuthService.verifyToken], lines 38-45 *)
Definition verifyToken (token : string) : option TokenPayload :=
  match verify token with
  | Some payload => Some payload
  | None => None
  end.

(** [authenticate], lines 17-38 *)
Definition authenticate (c : AuthContext) : result :=
  match req_header "Authorization" (ctx c) with
  | None => Json 401 "Unauthorized"
  | Some authHeader =>
      if decide (authHeader = "") then Json 401 "Unauthorized"
      else
        let token := remove_first "Bearer " authHeader in
        match verifyToken token with
        | None => Json 401 "Unauthorized"
        | Some payload => Next {| ctx := ctx c; user := Some payload |}
        end
  end.

(** [authorize(requiredRoles)], lines 44-71 *)
Definition authorize (requiredRoles : list string) (c : AuthContext) : result :=
  match user c with
  | None => Json 401 "Unauthorized"
  | Some u =>
      if hasRoles (roles u) requiredRoles then Next c
      else Json 403 "Forbidden"
  end.

(** Middlewares of a route in order: each one runs when the one before
    it has called [next()]. *)
Fixpoint chain (ms : list (AuthContext → result)) (c : AuthContext) : result :=
  match ms with
  | [] => Next c
  | m :: ms' =>
      match m c with
      | Next c' => chain ms' c'
      | Json status message => Json status message
      end
  end.

(** The guards of [routes/api.router.ts]: [POST /items] (lines 45-48)
    and [DELETE /items/:id] (line 98). *)
Definition post_items_guard : list (AuthContext → result) :=
  [authenticate; authorize ["user"]].

Definition delete_item_guard : list (AuthContext → result) :=
  [authenticate; authorize ["admin"]].

End Middleware.

(** A request as it enters the chain: no user set. *)
Definition incoming (c : Context) : AuthContext := {| ctx := c; user := None |}.

Definition with_authorization (value : string) : Context :=
  {| req_headers := {[ "Authorization" := value ]}; res_headers := ∅ |}.

(** A verifier that accepts one token. *)
Definition verify_only (token : string) (payload : TokenPayload)
    (t : string) : option TokenPayload :=
  if decide (t = token) then Some payload else None.

End Auth.

(** * The in-memory job queue

    [InMemoryQueue] of [src/queue/index.ts]. The jobs have type [T], the
    handlers type [H]; [truthy] is the test of [if (job)] on line 63. What
    a handler does with a job is outside the queue: the model records
    which job is handed to which handler. *)

Module JobQueue.

Section InMemoryQueue.

Context {T H : Type}.
Variable truthy : T → bool.

Record InMemoryQueue := mkQueue {
  queue : list T;
  processing : bool;
  handler : option H;
  interval : bool
}.

(** The constructor, lines 21-30 *)
Definition create : InMemoryQueue :=
  {| queue := []; processing := false; handler := None; interval := false |}.

(** [enqueue], lines 32-35 *)
Definition enqueue (data : T) (q : InMemoryQueue) : InMemoryQueue :=
  {| queue := queue q ++ [data]; processing := processing q;
     handler := handler q; interval := interval q |}.

(** [process], lines 37-45: the timer is cleared and set again. *)
Definition process (h : H) (q : InMemoryQueue) : InMemoryQueue :=
  {| queue := queue q; processing := processing q;
     handler := Some h; interval := true |}.

(** [shutdown], lines 47-53 *)
Definition shutdown (q : InMemoryQueue) : InMemoryQueue :=
  {| queue := queue q; processing := processing q;
     handler := handler q; interval := false |}.

(** [processNext], lines 55-66, up to the [await] of the handler: the
    job handed to the handler, if any. A job that is not truthy is
    removed and the [finally] of line 70 runs at once. *)
Definition processNext (q : InMemoryQueue) : InMemoryQueue * option (H * T) :=
  if processing q then (q, None)
  else
    match queue q, handler q with
    | [], _ => (q, None)
    | _ :: _, None => (q, None)
    | job :: rest, Some h =>
        if truthy job then
          ({| queue := rest; processing := true;
              handler := handler q; interval := interval q |},
           Some (h, job))
        else
          ({| queue := rest; processing := false;
              handler := handler q; interval := interval q |},
           None)
    end.

(** Lines 67-71: the awaited handler has settled, by returning or by
    throwing. *)
Definition settle (q : InMemoryQueue) : InMemoryQueue :=
  {| queue := queue q; processing := false;
     handler := handler q; interval := interval q |}.

(** What happens to a queue: calls of its methods, a firing of the timer
    set by [process] (only while it is set), the settling of a handler. *)
Inductive event :=
| Enqueue (data : T)
| Process (h : H)
| Shutdown
| Tick
| Settled.

Definition step (e : event) (q : InMemoryQueue)
    : InMemoryQueue * option (H * T) :=
  match e with
  | Enqueue data => (enqueue data q, None)
  | Process h => (process h q, None)
  | Shutdown => (shutdown q, None)
  | Tick => if interval q then processNext q else (q, None)
  | Settled => (settle q, None)
  end.

(** The queue after the events, and the jobs handed to handlers, in
    order. *)
Fixpoint run (es : list event) (q : InMemoryQueue)
    : InMemoryQueue * list (H * T) :=
  match es with
  | [] => (q, [])
  | e :: es' =>
      let r := step e q in
      let rest := run es' r.1 in
      (rest.1, match r.2 with Some x => x :: rest.2 | None => rest.2 end)
  end.

Definition enqueued (es : list event) : list T :=
  omap (λ e, match e with Enqueue data => Some data | _ => None end) es.

Definition is_settled (e : event) : bool :=
  match e with Settled => true | _ => false end.

Definition is_process (e : event) : bool :=
  match e with Process _ => true | _ => false end.

Definition settlements (es : list event) : nat :=
  length (filter (λ e, is_settled e = true) es).

End InMemoryQueue.

End JobQueue.

(** * The service registry

    [ServiceRegistry] of the microservices module, on the branch that
    keeps the services in the [Map] of the instance, which is the one
    taken by [createServiceRegistry(false)]. The [Map] is a list of
    entries in insertion order with distinct keys. *)

Module Registry.

Section ServiceRegistry.

Context {Meta : Type}.

Record ServiceInfo := mkServiceInfo {
  id : string;
  name : string;
  url : string;
  health : string;
  metadata : Meta;
  lastHeartbeat : Z
}.

(** [Map.prototype.set]: an existing key keeps its place. *)
Fixpoint map_set (k : string) (v : ServiceInfo)
    (m : list (string * ServiceInfo)) : list (string * ServiceInfo) :=
  match m with
  | [] => [(k, v)]
  | (k', v') :: m' =>
      if decide (k' = k) then (k, v) :: m' else (k', v') :: map_set k v m'
  end.

(** [Map.prototype.get] *)
Fixpoint map_get (k : string) (m : list (string * ServiceInfo))
    : option ServiceInfo :=
  match m with
  | [] => None
  | (k', v') :: m' => if decide (k' = k) then Some v' else map_get k m'
  end.

(** [register], lines 51-65: [service] comes without heartbeat; the
    spread is followed by [lastHeartbeat: Date.now()]. *)
Definition register (service : ServiceInfo) (now : Z)
    (m : list (string * ServiceInfo)) : string * list (string * ServiceInfo) :=
  let serviceInfo :=
    {| id := id service; name := name service; url := url service;
       health := health service; metadata := metadata service;
       lastHeartbeat := now |} in
  (id service, map_set (id service) serviceInfo m).

(** [heartbeat], lines 70-93 *)
Definition heartbeat (serviceId : string) (now : Z)
    (m : list (string * ServiceInfo)) : bool * list (string * ServiceInfo) :=
  match map_get serviceId m with
  | None => (false, m)
  | Some service =>
      let service' :=
        {| id := id service; name := name service; url := url service;
           health := health service; metadata := metadata service;
           lastHeartbeat := now |} in
      (true, map_set serviceId service' m)
  end.

(** [getServices], lines 98-105 *)
Definition getServices (m : list (string * ServiceInfo)) : list ServiceInfo :=
  m.*2.

(** [findService], lines 110-113 *)
Definition findService (name' : string) (m : list (string * ServiceInfo))
    : option ServiceInfo :=
  List.find (λ s, bool_decide (name s = name')) (getServices m).

Definition staleThreshold : Z := 60000.

(** [cleanupServices], lines 118-145 *)
Definition cleanupServices (now : Z) (m : list (string * ServiceInfo))
    : list (string * ServiceInfo) :=
  filter (λ kv : string * ServiceInfo,
            ¬ (now - lastHeartbeat kv.2 > staleThreshold)) m.

End ServiceRegistry.

Arguments ServiceInfo : clear implicits.

End Registry.

(** * Pagination

    The arithmetic of [UsersController.getAll] (lines 12-14 and 21-27) and
    of [GET /items] in [routes/api.router.ts] (line 92), on integers. *)

Module Paging.

(** [(page - 1) * limit] *)
Definition skip (page limit : Z) : Z := (page - 1) * limit.

(** [Math.ceil(total / limit)] for a positive [limit] *)
Definition pages (total limit : Z) : Z := - ((- total) / limit).

End Paging.

(** * Properties *)

(** ** The clean-up loop *)

Lemma sweep_lookup (now : Z) (s : gmap string entry) (k : string) :
  sweep now s !! k =
  match s !! k with
  | Some d => if decide (now > resetTime d) then None else Some d
  | None => None
  end.
Proof.
  unfold sweep. rewrite map_lookup_filter.
  destruct (s !! k) as [d|]; simpl; [|done].
  destruct (decide (now > resetTime d)) as [Hgt|Hle].
  - rewrite option_guard_False; [done|]. simpl. tauto.
  - rewrite option_guard_True; done.
Qed.

Lemma sweep_lookup_Some (now : Z) (s : gmap string entry) (k : string) (d : entry) :
  sweep now s !! k = Some d ↔ s !! k = Some d ∧ resetTime d >= now.
Proof.
  rewrite sweep_lookup. destruct (s !! k) as [d'|]; [|split; [done | by intros [? _]]].
  destruct (decide (now > resetTime d')); split; intros H.
  - done.
  - destruct H as [[= ->] ?]. lia.
  - simplify_eq. split; [done | lia].
  - by destruct H.
Qed.

(** ** One call of [inMemoryRateLimit] *)

(** No live record for the key: a fresh window is opened. *)
Lemma inMemory_fresh (key : string) (windowMs max now : Z) (c : Context)
    (s : gmap string entry) :
  (∀ d, s !! key = Some d → now > resetTime d) →
  inMemoryRateLimit key windowMs max now c s =
    (<[key := fresh_entry now windowMs]> (sweep now s),
     CallNext (set_rate_headers max (max - 1) (now + windowMs) c)).
Proof.
  intros Hfresh. unfold inMemoryRateLimit. cbv zeta.
  rewrite sweep_lookup. destruct (s !! key) as [d|] eqn:Hk; [|done].
  specialize (Hfresh d eq_refl). by rewrite decide_True.
Qed.

(** A live record for the key: it is incremented, and the incremented
    count is compared with [max]. *)
Lemma inMemory_live (key : string) (windowMs max now : Z) (c : Context)
    (s : gmap string entry) (d : entry) :
  s !! key = Some d →
  now <= resetTime d →
  inMemoryRateLimit key windowMs max now c s =
    (<[key := {| count := count d + 1; resetTime := resetTime d |}]> (sweep now s),
     if decide (count d + 1 > max) then CallHandler c
     else CallNext (set_rate_headers max (Z.max 0 (max - (count d + 1)))
                      (resetTime d) c)).
Proof.
  intros Hk Hlive. unfold inMemoryRateLimit. cbv zeta.
  rewrite sweep_lookup, Hk.
  rewrite decide_False by lia. rewrite decide_False by lia. simpl.
  by destruct (decide (count d + 1 > max)).
Qed.

(** The record kept for the key after a call. *)
Lemma inMemory_key_after (key : string) (windowMs max now : Z) (c : Context)
    (s : gmap string entry) :
  ∃ d, (inMemoryRateLimit key windowMs max now c s).1 !! key = Some d ∧
       (resetTime d = now + windowMs ∨
        ∃ d0, s !! key = Some d0 ∧ now <= resetTime d0 ∧ resetTime d = resetTime d0).
Proof.
  destruct (s !! key) as [d0|] eqn:Hk.
  - destruct (decide (now > resetTime d0)) as [Hgt|Hle].
    + rewrite inMemory_fresh by (intros d; rewrite Hk; by intros [= <-]).
      simpl. rewrite lookup_insert_eq. eexists; split; [done|]. by left.
    + rewrite (inMemory_live _ _ _ _ _ _ d0) by (done || lia).
      simpl. rewrite lookup_insert_eq. eexists; split; [done|].
      right. exists d0. simpl. repeat split; (done || lia).
  - rewrite inMemory_fresh by (intros d; rewrite Hk; done).
    simpl. rewrite lookup_insert_eq. eexists; split; [done|]. by left.
Qed.

(** Other keys only see the clean-up loop. *)
Lemma inMemory_other_key (key k : string) (windowMs max now : Z) (c : Context)
    (s : gmap string entry) :
  k ≠ key →
  (inMemoryRateLimit key windowMs max now c s).1 !! k = sweep now s !! k.
Proof.
  intros Hne. unfold inMemoryRateLimit. cbv zeta.
  destruct (sweep now s !! key) as [d|]; [|by simpl; rewrite lookup_insert_ne].
  destruct (decide (now > resetTime d)); [by simpl; rewrite lookup_insert_ne|].
  destruct (decide (_ > max)); simpl; by rewrite lookup_insert_ne.
Qed.

(** ** Sequences of requests for one key *)

Lemma window_decisions_cons (max n : Z) (len : nat) :
  window_decisions max n (S len) =
  bool_decide (n + 1 <= max) :: window_decisions max (n + 1) len.
Proof.
  unfold window_decisions. simpl. f_equal.
  - apply bool_decide_ext. lia.
  - rewrite <- fmap_S_seq, <- list_fmap_compose.
    apply list_fmap_ext. intros _ i _. simpl. apply bool_decide_ext. lia.
Qed.

Lemma window_decisions_full (max n : Z) (len : nat) :
  max <= n → window_decisions max n len = replicate len false.
Proof.
  revert n. induction len as [|len IH]; intros n Hn; [done|].
  rewrite window_decisions_cons, IH by lia.
  rewrite bool_decide_eq_false_2 by lia. done.
Qed.

Lemma window_decisions_count (max n : Z) (len : nat) :
  length (filter (λ b : bool, b = true) (window_decisions max n len)) =
  (Z.to_nat (max - n) `min` len)%nat.
Proof.
  revert n. induction len as [|len IH]; intros n.
  - simpl. lia.
  - rewrite window_decisions_cons. destruct (decide (n + 1 <= max)) as [Hle|Hgt].
    + rewrite bool_decide_eq_true_2 by done.
      rewrite filter_cons_True by done. simpl. rewrite IH. lia.
    + rewrite bool_decide_eq_false_2 by done.
      rewrite filter_cons_False by done. rewrite IH. lia.
Qed.

Lemma run_cons (L : Limiter) (rq : Request) (rqs : list Request) (st : State) :
  run L (rq :: rqs) st =
  ((run L rqs (handle L rq st).1).1,
   (handle L rq st).2 :: (run L rqs (handle L rq st).1).2).
Proof. done. Qed.

Lemma run_length (L : Limiter) (rqs : list Request) (st : State) :
  length (run L rqs st).2 = length rqs.
Proof.
  revert st. induction rqs as [|rq rqs IH]; intros st; [done|].
  rewrite run_cons. simpl. by rewrite IH.
Qed.

Lemma handle_local (L : Limiter) (rq : Request) (st : State) :
  uses_local L rq →
  handle L rq st = local_path L rq (inMemoryStore st) (redis st).
Proof. unfold uses_local, handle. by intros ->. Qed.

Lemma local_window_outcomes_admitted (max R n : Z) (rqs : list Request) :
  admitted <$> local_window_outcomes max R n rqs =
  window_decisions max n (length rqs).
Proof.
  revert n. induction rqs as [|rq rqs IH]; intros n; [done|].
  simpl length. rewrite window_decisions_cons. simpl. rewrite IH. f_equal.
  destruct (decide (n + 1 > max)); simpl.
  - by rewrite bool_decide_eq_false_2 by lia.
  - by rewrite bool_decide_eq_true_2 by lia.
Qed.

Lemma run_local_window (L : Limiter) (k : string) (R n : Z)
    (rqs : list Request) (st : State) :
  inMemoryStore st !! k = Some {| count := n; resetTime := R |} →
  Forall (λ rq, uses_local L rq ∧ l_keyGenerator L (rq_ctx rq) = k ∧
                rq_now_local rq <= R) rqs →
  (run L rqs st).2 = local_window_outcomes (l_max L) R n rqs ∧
  inMemoryStore (run L rqs st).1 !! k =
    Some {| count := n + Z.of_nat (length rqs); resetTime := R |}.
Proof.
  revert n st. induction rqs as [|rq rqs IH]; intros n st Hk Hall.
  - simpl. split; [done|]. rewrite Hk. do 2 f_equal. lia.
  - apply Forall_cons in Hall as [(Hloc & Hkey & Hin) Hall].
    rewrite run_cons. rewrite (handle_local _ _ _ Hloc).
    unfold local_path. rewrite Hkey.
    rewrite (inMemory_live k _ _ _ _ _ _ Hk) by done.
    cbn [fst snd inMemoryStore count resetTime].
    destruct (IH (n + 1) {| inMemoryStore :=
                 <[k := {| count := n + 1; resetTime := R |}]>
                   (sweep (rq_now_local rq) (inMemoryStore st));
               redis := redis st |}) as [IHo IHs].
    { simpl. by rewrite lookup_insert_eq. }
    { done. }
    split.
    + simpl. by rewrite IHo.
    + rewrite IHs. do 2 f_equal. simpl length. lia.
Qed.

(** ** One request on the shared path *)

Lemma string_length_app (s1 s2 : string) :
  String.length (s1 +:+ s2) = (String.length s1 + String.length s2)%nat.
Proof.
  induction s1 as [|a s1 IH]; [done|].
  change (String a s1 +:+ s2) with (String a (s1 +:+ s2)).
  simpl. by rewrite IH.
Qed.

Lemma resetTimeKey_ne (k : string) : resetTimeKey k ≠ k.
Proof.
  unfold resetTimeKey. intros Heq.
  apply (f_equal String.length) in Heq.
  rewrite string_length_app in Heq. simpl in Heq. lia.
Qed.

Lemma handle_redis (L : Limiter) (rq : Request) (st : State) :
  uses_redis L rq →
  handle L rq st =
  match redis_decide (l_keyGenerator L (rq_ctx rq)) (l_windowMs L) (l_max L)
          (rq_now rq) (rq_fails rq) (rq_ctx rq)
          (redis_get (rq_now rq) (l_keyGenerator L (rq_ctx rq)) (redis st),
           redis_get (rq_now rq) (resetTimeKey (l_keyGenerator L (rq_ctx rq)))
             (redis st))
          (redis st) with
  | (r', Some o) => ({| inMemoryStore := inMemoryStore st; redis := r' |}, o)
  | (r', None) => local_path L rq (inMemoryStore st) r'
  end.
Proof.
  intros (Hc & Hr & Hf). unfold handle, redisRateLimit, redis_read.
  by rewrite Hc, Hr, !Hf.
Qed.

(** The branch of lines 88-99: the window read from Redis has not lapsed. *)
Lemma redis_decide_live (key : string) (windowMs max now : Z)
    (fails : nat → bool) (c : Context) (cnt stored : option Z)
    (r : gmap string rval) :
  (∀ i, fails i = false) →
  now <= default (now + windowMs) stored →
  redis_decide key windowMs max now fails c (cnt, stored) r =
  let newCount := default 0 cnt + 1 in
  if decide (newCount > max) then (r, Some (CallHandler c))
  else (redis_set key newCount r,
        Some (CallNext (set_rate_headers max (Z.max 0 (max - newCount))
                          (default (now + windowMs) stored) c))).
Proof.
  intros Hf Hlive. unfold redis_decide. cbn [fst snd].
  assert (match stored with Some v => v | None => now + windowMs end
          = default (now + windowMs) stored) as -> by by destruct stored.
  rewrite decide_False by lia.
  assert (match cnt with Some v => v + 1 | None => 1 end = default 0 cnt + 1)
    as -> by by destruct cnt.
  cbv zeta. rewrite Hf. done.
Qed.

(** The branch of lines 79-87: the stored reset instant has passed. *)
Lemma redis_decide_expired (key : string) (windowMs max now : Z)
    (fails : nat → bool) (c : Context) (cnt : option Z) (rt : Z)
    (r : gmap string rval) :
  (∀ i, fails i = false) →
  now > rt →
  redis_decide key windowMs max now fails c (cnt, Some rt) r =
  (redis_expire now (resetTimeKey key) (ceil_div_1000 windowMs)
     (redis_expire now key (ceil_div_1000 windowMs)
        (redis_set (resetTimeKey key) (now + windowMs) (redis_set key 1 r))),
   Some (CallNext (set_rate_headers max (max - 1) rt c))).
Proof.
  intros Hf Hexp. unfold redis_decide, issue. cbn [fst snd].
  rewrite decide_True by done. by rewrite !Hf.
Qed.

Lemma redis_counting_get (k : string) (n : Z) (r : gmap string rval) (t : Z) :
  redis_counting k n r →
  default 0 (redis_get t k r) = n ∧ redis_get t (resetTimeKey k) r = None.
Proof.
  intros [Hr [[-> Hk]|Hk]]; unfold redis_get; by rewrite Hr, Hk.
Qed.

Lemma handle_redis_counting (L : Limiter) (k : string) (n : Z) (rq : Request)
    (st : State) :
  0 <= l_windowMs L →
  uses_redis L rq →
  l_keyGenerator L (rq_ctx rq) = k →
  redis_counting k n (redis st) →
  handle L rq st =
  if decide (n + 1 > l_max L) then (st, CallHandler (rq_ctx rq))
  else ({| inMemoryStore := inMemoryStore st;
           redis := redis_set k (n + 1) (redis st) |},
        CallNext (set_rate_headers (l_max L) (Z.max 0 (l_max L - (n + 1)))
                    (rq_now rq + l_windowMs L) (rq_ctx rq))).
Proof.
  intros Hw Hu Hkey Hcnt. rewrite (handle_redis _ _ _ Hu), Hkey.
  destruct (redis_counting_get k n (redis st) (rq_now rq) Hcnt) as [Hc Hr].
  rewrite Hr. destruct Hu as (_ & _ & Hf).
  rewrite redis_decide_live by (done || simpl; lia).
  cbv zeta. rewrite Hc. simpl.
  destruct (decide (n + 1 > l_max L)); [|done]. by destruct st.
Qed.

Lemma redis_counting_set (k : string) (n m : Z) (r : gmap string rval) :
  redis_counting k n r → redis_counting k m (redis_set k m r).
Proof.
  intros [Hr _]. unfold redis_counting, redis_set. split.
  - rewrite lookup_insert_ne by (intros Heq; by apply (resetTimeKey_ne k)). done.
  - right. by rewrite lookup_insert_eq.
Qed.

Lemma run_redis_counting (L : Limiter) (k : string) (n : Z)
    (rqs : list Request) (st : State) :
  0 <= l_windowMs L →
  redis_counting k n (redis st) →
  Forall (λ rq, uses_redis L rq ∧ l_keyGenerator L (rq_ctx rq) = k) rqs →
  admitted <$> (run L rqs st).2 = window_decisions (l_max L) n (length rqs).
Proof.
  intros Hw. revert n st. induction rqs as [|rq rqs IH]; intros n st Hcnt Hall.
  - done.
  - apply Forall_cons in Hall as [[Hu Hkey] Hall].
    rewrite run_cons. rewrite (handle_redis_counting L k n) by done.
    simpl length. rewrite window_decisions_cons.
    destruct (decide (n + 1 > l_max L)) as [Hgt|Hle]; cbn [fst snd fmap list_fmap].
    + rewrite bool_decide_eq_false_2 by lia.
      change (admitted (CallHandler (rq_ctx rq))) with false.
      rewrite (IH n) by done.
      rewrite !window_decisions_full by lia. done.
    + rewrite bool_decide_eq_true_2 by lia.
      change (admitted (CallNext ?c)) with true.
      rewrite (IH (n + 1)); [done| |done].
      simpl. by eapply redis_counting_set.
Qed.

(** ** Admission up to the limit *)

Lemma filter_admitted_length (outs : list outcome) :
  length (filter (λ o, admitted o = true) outs) =
  length (filter (λ b : bool, b = true) (admitted <$> outs)).
Proof.
  induction outs as [|o outs IH]; [done|].
  rewrite fmap_cons. destruct (admitted o) eqn:Ho.
  - rewrite !filter_cons_True by done. simpl. by rewrite IH.
  - rewrite !filter_cons_False by (by rewrite ?Ho). done.
Qed.

Lemma admits_up_to_intro (max : Z) (outs : list outcome) :
  admitted <$> outs = window_decisions max 0 (length outs) →
  admits_up_to max outs.
Proof.
  intros Heq. split.
  - intros i o Hi.
    assert ((admitted <$> outs) !! i = Some (admitted o)) as Hl
      by by rewrite list_lookup_fmap, Hi.
    rewrite Heq in Hl. unfold window_decisions in Hl.
    rewrite list_lookup_fmap in Hl.
    apply lookup_lt_Some in Hi.
    rewrite lookup_seq_lt in Hl by done. simpl in Hl.
    injection Hl as <-. apply bool_decide_ext. lia.
  - rewrite filter_admitted_length, Heq, window_decisions_count.
    f_equal. f_equal. lia.
Qed.

Lemma local_window_outcomes_lookup (max R n : Z) (rqs : list Request)
    (i : nat) (rq : Request) :
  rqs !! i = Some rq →
  local_window_outcomes max R n rqs !! i =
  Some (if decide (n + Z.of_nat i + 1 > max) then CallHandler (rq_ctx rq)
        else CallNext (set_rate_headers max (Z.max 0 (max - (n + Z.of_nat i + 1)))
                         R (rq_ctx rq))).
Proof.
  revert n i. induction rqs as [|rq' rqs IH]; intros n i Hi; [done|].
  destruct i as [|i]; simpl in *.
  - injection Hi as ->.
    replace (n + Z.of_nat 0 + 1) with (n + 1) by lia. done.
  - rewrite (IH (n + 1) i Hi).
    replace (n + 1 + Z.of_nat i + 1) with (n + Z.of_nat (S i) + 1) by lia.
    done.
Qed.

(** A window opened on the local path by [rq0] and continued by [rqs]. *)
Lemma run_local_fresh (L : Limiter) (k : string) (rq0 : Request)
    (rqs : list Request) (st : State) :
  Forall (uses_local L) (rq0 :: rqs) →
  Forall (λ rq, l_keyGenerator L (rq_ctx rq) = k) (rq0 :: rqs) →
  (∀ d, inMemoryStore st !! k = Some d → rq_now_local rq0 > resetTime d) →
  Forall (λ rq, rq_now_local rq <= rq_now_local rq0 + l_windowMs L) rqs →
  (run L (rq0 :: rqs) st).2 =
    CallNext (set_rate_headers (l_max L) (l_max L - 1)
                (rq_now_local rq0 + l_windowMs L) (rq_ctx rq0))
    :: local_window_outcomes (l_max L) (rq_now_local rq0 + l_windowMs L) 1 rqs.
Proof.
  intros [Hl0 Hl]%Forall_cons [Hk0 Hk]%Forall_cons Hfresh Hin.
  rewrite run_cons, (handle_local _ _ _ Hl0). unfold local_path.
  rewrite Hk0, inMemory_fresh by done. cbn [fst snd]. f_equal.
  eapply run_local_window.
  - simpl. by rewrite lookup_insert_eq.
  - rewrite Forall_forall in *. intros rq Hrq. auto.
Qed.

(** C1, outside the configurations in which it holds. With [max = 0]
    (taken from the environment) the first request of a key on the local
    path is admitted, because the branch that opens a window never looks
    at [max]: one admission where the claim allows none. With a negative
    window length every request on the shared path takes the reset branch
    and is admitted: three admissions with [max = 2]. *)
Lemma zero_limit_counterexample :
  let zero := rateLimit {| RATE_LIMIT_WINDOW_MS := 60000;
                           RATE_LIMIT_MAX_REQUESTS := 0; REDIS_URL := None |}
                {| opt_windowMs := None; opt_max := None;
                   opt_keyGenerator := None; opt_useRedis := None |} in
  let negative := rateLimit env0 (options_of (-5) 2 true) in
  (l_max zero = 0 ∧
   admitted <$> (run zero [k1_at 0; k1_at 10] state0).2 = [true; false] ∧
   ¬ admits_up_to (l_max zero) (run zero [k1_at 0; k1_at 10] state0).2) ∧
  (l_max negative = 2 ∧ l_windowMs negative = -5 ∧
   admitted <$> (run negative [k1_at 0; k1_at 10; k1_at 20] state0).2
     = [true; true; true] ∧
   ¬ admits_up_to (l_max negative)
       (run negative [k1_at 0; k1_at 10; k1_at 20] state0).2).
Proof.
  cbv zeta. split.
  - split; [reflexivity|]. split; [vm_compute; reflexivity|].
    intros [_ Hcount]. vm_compute in Hcount. discriminate Hcount.
  - split; [reflexivity|]. split; [reflexivity|].
    split; [vm_compute; reflexivity|].
    intros [_ Hcount]. vm_compute in Hcount. discriminate Hcount.
Qed.

(** C1, as the code has it. Within one window of one key, the request
    at position [i] is admitted exactly when its post-increment count
    [i + 1] is at most [max]: exactly [max] requests are admitted and the
    [(max+1)]-th is the first one rejected. This holds on the local path
    for a limit of at least 1, the window being opened by the first
    request [rq0] (no live record) and the others arriving no later than
    its reset instant; and on the shared path for a window length that is
    not negative, the window being opened on a key with no stored counter
    and no stored reset instant. In any window that has not lapsed, on
    either path and for every limit, a request is admitted exactly when
    the count it brings the counter to is at most [max]. *)
Theorem window_admits_exactly_max (L : Limiter) (k : string) (rq0 : Request)
    (rqs : list Request) (st : State) :
  Forall (λ rq, l_keyGenerator L (rq_ctx rq) = k) (rq0 :: rqs) →
  (1 <= l_max L →
   Forall (uses_local L) (rq0 :: rqs) →
   (∀ d, inMemoryStore st !! k = Some d → rq_now_local rq0 > resetTime d) →
   Forall (λ rq, rq_now_local rq <= rq_now_local rq0 + l_windowMs L) rqs →
   admits_up_to (l_max L) (run L (rq0 :: rqs) st).2) ∧
  (0 <= l_windowMs L →
   Forall (uses_redis L) (rq0 :: rqs) →
   redis st !! k = None → redis st !! resetTimeKey k = None →
   admits_up_to (l_max L) (run L (rq0 :: rqs) st).2) ∧
  (∀ d, uses_local L rq0 →
        inMemoryStore st !! k = Some d → rq_now_local rq0 <= resetTime d →
        admitted (handle L rq0 st).2 = bool_decide (count d + 1 <= l_max L)) ∧
  (uses_redis L rq0 →
   rq_now rq0 <= default (rq_now rq0 + l_windowMs L)
                   (redis_get (rq_now rq0) (resetTimeKey k) (redis st)) →
   admitted (handle L rq0 st).2 =
   bool_decide (default 0 (redis_get (rq_now rq0) k (redis st)) + 1 <= l_max L)).
Proof.
  intros Hkeys. split; [|split; [|split]].
  - intros Hmax Hloc Hfresh Hin. apply admits_up_to_intro.
    rewrite run_length, (run_local_fresh L k) by done.
    rewrite fmap_cons, local_window_outcomes_admitted.
    simpl length. rewrite window_decisions_cons.
    rewrite bool_decide_eq_true_2 by lia. done.
  - intros Hw Hred Hk Hr. apply admits_up_to_intro.
    rewrite run_length. apply (run_redis_counting L k); [done| |].
    + split; [done|]. by left.
    + rewrite Forall_forall in *. intros rq Hrq. auto.
  - intros d Hl Hk Hlive. apply Forall_cons in Hkeys as [Hk0 _].
    rewrite (handle_local _ _ _ Hl). unfold local_path. rewrite Hk0.
    rewrite (inMemory_live k _ _ _ _ _ d) by done. cbn [snd].
    destruct (decide (count d + 1 > l_max L)); cbn [admitted].
    + by rewrite bool_decide_eq_false_2 by lia.
    + by rewrite bool_decide_eq_true_2 by lia.
  - intros Hu Hlive. apply Forall_cons in Hkeys as [Hk0 _].
    rewrite (handle_redis _ _ _ Hu), Hk0. destruct Hu as (_ & _ & Hf).
    rewrite redis_decide_live by done. cbv zeta.
    destruct (decide (_ > l_max L)); cbn [admitted].
    + by rewrite bool_decide_eq_false_2 by lia.
    + by rewrite bool_decide_eq_true_2 by lia.
Qed.

(** The first request of a key on the shared path, for a limit of at
    least 1: both branches admit it and report the same values. *)
Lemma handle_redis_new_key (L : Limiter) (k : string) (rq : Request)
    (st : State) :
  uses_redis L rq →
  l_keyGenerator L (rq_ctx rq) = k →
  redis st !! k = None → redis st !! resetTimeKey k = None →
  1 <= l_max L →
  (handle L rq st).2 =
  CallNext (set_rate_headers (l_max L) (l_max L - 1)
              (rq_now rq + l_windowMs L) (rq_ctx rq)).
Proof.
  intros Hu Hkey Hk Hr Hmax. rewrite (handle_redis _ _ _ Hu), Hkey.
  destruct Hu as (_ & _ & Hf).
  unfold redis_get. rewrite Hk, Hr. unfold redis_decide, issue.
  rewrite !Hf. cbn [orb fst snd].
  destruct (decide (rq_now rq > _)); [done|].
  rewrite decide_False by lia. cbn [snd].
  by replace (Z.max 0 (l_max L - 1)) with (l_max L - 1) by lia.
Qed.

(** A window opened on the shared path and kept within the limit. *)
Lemma run_redis_counting_lookup (L : Limiter) (k : string) (n : Z)
    (rqs : list Request) (st : State) :
  0 <= l_windowMs L →
  redis_counting k n (redis st) →
  Forall (λ rq, uses_redis L rq ∧ l_keyGenerator L (rq_ctx rq) = k) rqs →
  n + Z.of_nat (length rqs) <= l_max L →
  ∀ (i : nat) (rq : Request),
    rqs !! i = Some rq →
    (run L rqs st).2 !! i =
    Some (CallNext (set_rate_headers (l_max L) (l_max L - (n + Z.of_nat i + 1))
                      (rq_now rq + l_windowMs L) (rq_ctx rq))).
Proof.
  intros Hw. revert n st.
  induction rqs as [|rq0 rqs IH]; intros n st Hcnt Hall Hlen i rq Hi; [done|].
  apply Forall_cons in Hall as [[Hu Hkey] Hall]. simpl length in Hlen.
  rewrite run_cons. rewrite (handle_redis_counting L k n) by done.
  rewrite decide_False by lia. cbn [fst snd].
  destruct i as [|i].
  - injection Hi as ->. cbn [lookup list_lookup]. do 3 f_equal. lia.
  - change ((?x :: ?l) !! S i) with (l !! i).
    rewrite (IH (n + 1) {| inMemoryStore := inMemoryStore st;
                           redis := redis_set k (n + 1) (redis st) |}
               (redis_counting_set k n (n + 1) _ Hcnt) Hall ltac:(lia) i rq Hi).
    do 3 f_equal. lia.
Qed.

(** What an admitted request reports: the outcome is [next()] and the
    three headers read back as the given limit, remaining count and reset
    instant. *)
Lemma reports_set_headers (max remaining reset : Z) (c : Context) :
  admitted (CallNext (set_rate_headers max remaining reset c)) = true ∧
  res_headers (outcome_ctx (CallNext (set_rate_headers max remaining reset c)))
    !! "X-RateLimit-Limit" = Some (String_of max) ∧
  res_headers (outcome_ctx (CallNext (set_rate_headers max remaining reset c)))
    !! "X-RateLimit-Remaining" = Some (String_of remaining) ∧
  res_headers (outcome_ctx (CallNext (set_rate_headers max remaining reset c)))
    !! "X-RateLimit-Reset" = Some (String_of reset).
Proof.
  split; [done|]. cbn [outcome_ctx]. unfold set_rate_headers, header.
  cbn [res_headers]. repeat split.
  - by rewrite !lookup_insert_ne, lookup_insert_eq by discriminate.
  - by rewrite lookup_insert_ne, lookup_insert_eq by discriminate.
  - by rewrite lookup_insert_eq.
Qed.

(** C5. A sequence of [N <= max] requests for one key within one window:
    every request is admitted, and the request at position [i] (from 0)
    reports, in the header [X-RateLimit-Remaining], the value
    [max - (i + 1)], so the values [max-1, max-2, ..., max-N] in order,
    together with the limit in [X-RateLimit-Limit]. On the local path the
    window is opened by the first request and the others arrive no later
    than its reset instant, which is the instant reported. On the shared
    path the window is opened by the first request on a key with no
    stored counter and no stored reset instant, and each of the others
    finds it not lapsed (the test of line 79 fails for it). *)
Theorem within_limit_all_admitted (L : Limiter) (k : string) (rq0 : Request)
    (rqs : list Request) (st : State) :
  Forall (λ rq, l_keyGenerator L (rq_ctx rq) = k) (rq0 :: rqs) →
  Z.of_nat (length (rq0 :: rqs)) <= l_max L →
  (Forall (uses_local L) (rq0 :: rqs) →
   (∀ d, inMemoryStore st !! k = Some d → rq_now_local rq0 > resetTime d) →
   Forall (λ rq, rq_now_local rq <= rq_now_local rq0 + l_windowMs L) rqs →
   ∀ (i : nat) (rq : Request),
     (rq0 :: rqs) !! i = Some rq →
     ∃ o, (run L (rq0 :: rqs) st).2 !! i = Some o ∧
          admitted o = true ∧
          res_headers (outcome_ctx o) !! "X-RateLimit-Limit"
            = Some (String_of (l_max L)) ∧
          res_headers (outcome_ctx o) !! "X-RateLimit-Remaining"
            = Some (String_of (l_max L - (Z.of_nat i + 1))) ∧
          res_headers (outcome_ctx o) !! "X-RateLimit-Reset"
            = Some (String_of (rq_now_local rq0 + l_windowMs L))) ∧
  (Forall (uses_redis L) (rq0 :: rqs) →
   Forall (λ rq, ¬ rq_now rq > rq_now rq + l_windowMs L) rqs →
   redis st !! k = None → redis st !! resetTimeKey k = None →
   ∀ (i : nat) (rq : Request),
     (rq0 :: rqs) !! i = Some rq →
     ∃ o, (run L (rq0 :: rqs) st).2 !! i = Some o ∧
          admitted o = true ∧
          res_headers (outcome_ctx o) !! "X-RateLimit-Limit"
            = Some (String_of (l_max L)) ∧
          res_headers (outcome_ctx o) !! "X-RateLimit-Remaining"
            = Some (String_of (l_max L - (Z.of_nat i + 1))) ∧
          res_headers (outcome_ctx o) !! "X-RateLimit-Reset"
            = Some (String_of (rq_now rq + l_windowMs L))).
Proof.
  intros Hkeys Hlen. split.
  - intros Hloc Hfresh Hin i rq Hi.
    rewrite (run_local_fresh L k) by done.
    destruct i as [|i]; simpl in Hi |- *.
    + injection Hi as ->. eexists. split; [done|].
      apply reports_set_headers.
    + rewrite (local_window_outcomes_lookup _ _ _ _ _ _ Hi).
      apply lookup_lt_Some in Hi. simpl in Hlen.
      rewrite decide_False by lia. eexists. split; [done|].
      replace (Z.max 0 (l_max L - (1 + Z.of_nat i + 1)))
        with (l_max L - (Z.pos (Pos.of_succ_nat i) + 1)) by lia.
      apply reports_set_headers.
  - intros Hred Hlive Hk Hr i rq Hi.
    assert (rqs = [] ∨ 0 <= l_windowMs L) as [-> | Hw].
    { destruct rqs as [|rq1 rqs']; [by left | right].
      apply Forall_cons in Hlive as [H0 _]. lia. }
    { destruct i as [|i]; [|done]. injection Hi as <-.
      apply Forall_cons in Hred as [Hu _]. apply Forall_cons in Hkeys as [Hk0 _].
      cbn [run fst snd length] in *. cbn [lookup list_lookup].
      rewrite (handle_redis_new_key L k rq0 st) by (done || lia).
      eexists. split; [done|].
      exact (reports_set_headers (l_max L) (l_max L - 1)
               (rq_now rq0 + l_windowMs L) (rq_ctx rq0)). }
    assert (redis_counting k 0 (redis st)) as Hcnt
      by (split; [done|]; by left).
    assert (Forall (λ rq, uses_redis L rq ∧ l_keyGenerator L (rq_ctx rq) = k)
              (rq0 :: rqs)) as Hall
      by (rewrite Forall_forall in *; intros rq' Hrq; auto).
    rewrite (run_redis_counting_lookup L k 0 (rq0 :: rqs) st Hw Hcnt Hall
               ltac:(lia) i rq Hi).
    eexists. split; [done|]. apply reports_set_headers.
Qed.

Lemma window_admits_exactly_max_witness :
  admits_up_to 2 (run limiter_local [k1_at 0; k1_at 10; k1_at 20] state0).2 ∧
  admits_up_to 2 (run limiter_shared [k1_at 0; k1_at 10; k1_at 20] state0).2 ∧
  admitted (handle limiter_local (k1_at 20)
              {| inMemoryStore := {[ "rate-limit:k1" := mkEntry 2 60000 ]};
                 redis := ∅ |}).2 = bool_decide (2 + 1 <= 2) ∧
  admitted (handle limiter_shared (k1_at 20)
              {| inMemoryStore := ∅;
                 redis := {[ "rate-limit:k1" := mkRval 1 None ]} |}).2
    = bool_decide (1 + 1 <= 2).
Proof.
  split; [|split; [|split]].
  - refine (proj1 (window_admits_exactly_max limiter_local "rate-limit:k1"
                     (k1_at 0) [k1_at 10; k1_at 20] state0 _) _ _ _ _); eval_hyp.
  - refine (proj1 (proj2 (window_admits_exactly_max limiter_shared
                            "rate-limit:k1" (k1_at 0) [k1_at 10; k1_at 20]
                            state0 _)) _ _ _ _); eval_hyp.
  - refine (proj1 (proj2 (proj2 (window_admits_exactly_max limiter_local
                                   "rate-limit:k1" (k1_at 20) [] _ _)))
              (mkEntry 2 60000) _ _ _); eval_hyp.
  - refine (proj2 (proj2 (proj2 (window_admits_exactly_max limiter_shared
                                   "rate-limit:k1" (k1_at 20) [] _ _)))
              _ _); eval_hyp.
Defined.

Lemma within_limit_all_admitted_witness :
  (∃ o, (run limiter_local [k1_at 0; k1_at 10] state0).2 !! 1%nat = Some o ∧
        admitted o = true ∧
        res_headers (outcome_ctx o) !! "X-RateLimit-Limit" = Some (String_of 2) ∧
        res_headers (outcome_ctx o) !! "X-RateLimit-Remaining"
          = Some (String_of (2 - (Z.of_nat 1 + 1))) ∧
        res_headers (outcome_ctx o) !! "X-RateLimit-Reset"
          = Some (String_of (0 + 60000))) ∧
  (∃ o, (run limiter_shared [k1_at 0; k1_at 10] state0).2 !! 1%nat = Some o ∧
        admitted o = true ∧
        res_headers (outcome_ctx o) !! "X-RateLimit-Limit" = Some (String_of 2) ∧
        res_headers (outcome_ctx o) !! "X-RateLimit-Remaining"
          = Some (String_of (2 - (Z.of_nat 1 + 1))) ∧
        res_headers (outcome_ctx o) !! "X-RateLimit-Reset"
          = Some (String_of (10 + 60000))).
Proof.
  split.
  - refine (proj1 (within_limit_all_admitted limiter_local "rate-limit:k1"
                     (k1_at 0) [k1_at 10] state0 _ _) _ _ _ 1%nat (k1_at 10) _);
      eval_hyp.
  - refine (proj2 (within_limit_all_admitted limiter_shared "rate-limit:k1"
                     (k1_at 0) [k1_at 10] state0 _ _) _ _ _ _ 1%nat (k1_at 10) _);
      eval_hyp.
Defined.

(** ** Expiry on the local path *)

(** C9, with a negative window length. [rateLimit] keeps a negative
    [windowMs]; the entry that the call then creates for its key has its
    [resetTime] before the current instant: 95 at instant 100. *)
Lemma negative_window_counterexample :
  l_windowMs (rateLimit env0 (options_of (-5) 2 false)) = -5 ∧
  (inMemoryRateLimit "a" (-5) 2 100 ctx0 ∅).1 !! "a"
    = Some {| count := 1; resetTime := 95 |} ∧
  95 < 100.
Proof. split; [reflexivity|]. split; [vm_compute; reflexivity | lia]. Qed.

(** C9, as the code has it. Each call of [inMemoryRateLimit] at instant
    [now] sweeps the whole map before deciding: for every key other than
    the one decided, the entry is deleted if [now > resetTime] and kept
    unchanged otherwise, so that afterwards none of these entries has a
    [resetTime] strictly before [now]. The entry of the decided key has
    that property too when the window length is not negative. *)
Theorem no_expired_entry_after_call (key : string) (windowMs max now : Z)
    (c : Context) (s : gmap string entry) :
  (∀ k, k ≠ key →
        (inMemoryRateLimit key windowMs max now c s).1 !! k =
        match s !! k with
        | Some d => if decide (now > resetTime d) then None else Some d
        | None => None
        end) ∧
  (∀ k d, k ≠ key →
          (inMemoryRateLimit key windowMs max now c s).1 !! k = Some d →
          ¬ resetTime d < now) ∧
  (0 <= windowMs →
   ∀ k d, (inMemoryRateLimit key windowMs max now c s).1 !! k = Some d →
          ¬ resetTime d < now).
Proof.
  assert (∀ k d, k ≠ key →
            (inMemoryRateLimit key windowMs max now c s).1 !! k = Some d →
            ¬ resetTime d < now) as Hother.
  { intros k d Hne Hk. rewrite inMemory_other_key in Hk by done.
    apply sweep_lookup_Some in Hk as [_ Hge]. lia. }
  split; [|split; [done|]].
  - intros k Hne. rewrite inMemory_other_key by done. apply sweep_lookup.
  - intros Hw k d Hk. destruct (decide (k = key)) as [->|Hne]; [|by eapply Hother].
    destruct (inMemory_key_after key windowMs max now c s)
      as (d' & Hd' & [Hnew | (d0 & _ & Hlive & Hsame)]);
      rewrite Hd' in Hk; injection Hk as <-; lia.
Qed.

Lemma no_expired_entry_after_call_witness :
  (∀ k d,
     (inMemoryRateLimit "a" 60000 2 70000 ctx0
        {[ "a" := mkEntry 2 60000; "b" := mkEntry 1 65000;
           "c" := mkEntry 1 90000 ]}).1 !! k = Some d →
     ¬ resetTime d < 70000) ∧
  (inMemoryRateLimit "a" 60000 2 70000 ctx0
     {[ "a" := mkEntry 2 60000; "b" := mkEntry 1 65000;
        "c" := mkEntry 1 90000 ]}).1 !! "b" = None ∧
  ¬ resetTime (mkEntry 1 90000) < 70000.
Proof.
  split; [|split].
  - apply (proj2 (proj2 (no_expired_entry_after_call "a" 60000 2 70000 ctx0 _))).
    lia.
  - rewrite (proj1 (no_expired_entry_after_call "a" 60000 2 70000 ctx0
                      {[ "a" := mkEntry 2 60000; "b" := mkEntry 1 65000;
                         "c" := mkEntry 1 90000 ]}) "b")
      by discriminate.
    reflexivity.
  - refine (proj1 (proj2 (no_expired_entry_after_call "a" 60000 2 70000 ctx0
                            {[ "a" := mkEntry 2 60000; "b" := mkEntry 1 65000;
                               "c" := mkEntry 1 90000 ]})) "c" _ _ _).
    + discriminate.
    + rewrite (proj1 (no_expired_entry_after_call "a" 60000 2 70000 ctx0
                        {[ "a" := mkEntry 2 60000; "b" := mkEntry 1 65000;
                           "c" := mkEntry 1 90000 ]}) "c")
        by discriminate.
      reflexivity.
Defined.

Lemma sweep_delete_expired (now : Z) (s : gmap string entry) (k : string)
    (d : entry) :
  s !! k = Some d → now > resetTime d → sweep now (delete k s) = sweep now s.
Proof.
  intros Hk Hexp. apply map_eq. intros i. rewrite !sweep_lookup.
  destruct (decide (i = k)) as [->|Hne].
  - rewrite lookup_delete_eq, Hk. by rewrite decide_True.
  - by rewrite lookup_delete_ne.
Qed.

Lemma ceil_div_1000_pos (w : Z) : 0 < w → 0 < ceil_div_1000 w.
Proof.
  intros Hw. unfold ceil_div_1000.
  assert ((- w) / 1000 < 0) by (apply Z.div_lt_upper_bound; lia). lia.
Qed.

Lemma redis_expire_persistent (t : Z) (k : string) (secs v : Z)
    (r : gmap string rval) :
  0 < secs →
  r !! k = Some {| rv_value := v; rv_deadline := None |} →
  redis_expire t k secs r =
  <[k := {| rv_value := v; rv_deadline := Some (t + secs * 1000) |}]> r.
Proof.
  intros Hs Hk. unfold redis_expire. rewrite Hk. cbn [rv_live rv_deadline rv_value].
  assert ((secs <=? 0) = false) as -> by lia. done.
Qed.

(** The shared store after the four commands of lines 82-85. *)
Lemma redis_reset_lookup (key : string) (windowMs now : Z) (r : gmap string rval) :
  0 < windowMs →
  let r' := redis_expire now (resetTimeKey key) (ceil_div_1000 windowMs)
              (redis_expire now key (ceil_div_1000 windowMs)
                 (redis_set (resetTimeKey key) (now + windowMs)
                    (redis_set key 1 r))) in
  r' !! key = Some {| rv_value := 1;
                      rv_deadline := Some (now + ceil_div_1000 windowMs * 1000) |} ∧
  r' !! resetTimeKey key =
    Some {| rv_value := now + windowMs;
            rv_deadline := Some (now + ceil_div_1000 windowMs * 1000) |}.
Proof.
  intros Hw. pose proof (ceil_div_1000_pos windowMs Hw) as Hc.
  pose proof (resetTimeKey_ne key) as Hne.
  cbv zeta.
  rewrite (redis_expire_persistent now key _ 1) by
    (done || unfold redis_set; by rewrite lookup_insert_ne, lookup_insert_eq).
  rewrite (redis_expire_persistent now (resetTimeKey key) _ (now + windowMs)) by
    (done || unfold redis_set; by rewrite lookup_insert_ne, lookup_insert_eq).
  split.
  - by rewrite lookup_insert_ne, lookup_insert_eq.
  - by rewrite lookup_insert_eq.
Qed.

Lemma ceil_div_1000_nonpos (w : Z) : w <= 0 → ceil_div_1000 w <= 0.
Proof.
  intros Hw. unfold ceil_div_1000.
  assert (0 <= (- w) / 1000) by (apply Z.div_pos; lia). lia.
Qed.

Lemma redis_expire_at_once (t : Z) (k : string) (secs v : Z)
    (r : gmap string rval) :
  secs <= 0 →
  r !! k = Some {| rv_value := v; rv_deadline := None |} →
  redis_expire t k secs r = delete k r.
Proof.
  intros Hs Hk. unfold redis_expire. rewrite Hk. cbn [rv_live rv_deadline].
  assert ((secs <=? 0) = true) as -> by lia. done.
Qed.

(** The shared store after the four commands of lines 82-85 when the
    window length is not positive: [EXPIRE] with a time to live of 0 or
    less removes both keys. *)
Lemma redis_reset_lookup_nonpos (key : string) (windowMs now : Z)
    (r : gmap string rval) :
  windowMs <= 0 →
  let r' := redis_expire now (resetTimeKey key) (ceil_div_1000 windowMs)
              (redis_expire now key (ceil_div_1000 windowMs)
                 (redis_set (resetTimeKey key) (now + windowMs)
                    (redis_set key 1 r))) in
  r' !! key = None ∧ r' !! resetTimeKey key = None.
Proof.
  intros Hw. pose proof (ceil_div_1000_nonpos windowMs Hw) as Hc.
  pose proof (resetTimeKey_ne key) as Hne.
  cbv zeta.
  rewrite (redis_expire_at_once now key _ 1) by
    (done || unfold redis_set; by rewrite lookup_insert_ne, lookup_insert_eq).
  rewrite (redis_expire_at_once now (resetTimeKey key) _ (now + windowMs)) by
    (done || unfold redis_set;
     by rewrite lookup_delete_ne, lookup_insert_eq).
  split.
  - by rewrite lookup_delete_ne, lookup_delete_eq.
  - by rewrite lookup_delete_eq.
Qed.

(** C4, at the boundary. A window opened at instant 0 with
    [windowMs = 60000] and [max = 2] has its expiry instant at 60000. A
    third request arriving exactly at 60000 still finds the record live:
    the count goes to 3 and the request goes to the rejecting handler,
    where the claim asks for a fresh record with [count = 1]. And on the
    shared path with a window length of 0, the request that finds a
    lapsed reset instant leaves no record at all: the time to live of 0
    seconds removes the counter and the reset instant just written. *)
Lemma expiry_boundary_counterexample :
  (let st := (run limiter_local [k1_at 0; k1_at 10] state0).1 in
   inMemoryStore st !! "rate-limit:k1"
     = Some {| count := 2; resetTime := 0 + 60000 |} ∧
   rq_now_local (k1_at 60000) >= 0 + 60000 ∧
   inMemoryStore (handle limiter_local (k1_at 60000) st).1 !! "rate-limit:k1"
     = Some {| count := 3; resetTime := 60000 |} ∧
   (handle limiter_local (k1_at 60000) st).2 = CallHandler (ctx_from "k1")) ∧
  (let r := {[ "k" := mkRval 3 None; "k:reset" := mkRval 60000 None ]} in
   redis_get 61000 (resetTimeKey "k") r = Some 60000 ∧
   61000 >= 60000 ∧
   (redisRateLimit "k" 0 2 61000 no_failure ctx0 r).1 !! "k" = None ∧
   (redisRateLimit "k" 0 2 61000 no_failure ctx0 r).1 !! resetTimeKey "k" = None).
Proof. vm_compute. repeat split; congruence. Qed.

(** C4, as the code has it. A record created at instant [now] expires at
    [now + windowMs]. Once [now > resetTime] (strictly) the record no
    longer influences the decision: the call behaves as if the record
    were absent, the request is admitted and the key holds a fresh record
    with [count = 1]; a request arriving exactly at [resetTime] still
    increments the record. On the shared path, when a reset instant [rt]
    is stored and [now > rt], the request is admitted whatever the stored
    count; for a positive window length the key then holds the count 1
    and the reset instant [now + windowMs], and for a window length of 0
    or less both keys are removed by their time to live. *)
Theorem expired_record_is_replaced (key : string) (windowMs max now : Z)
    (c : Context) :
  (∀ (s : gmap string entry) (d : entry),
     s !! key = Some d →
     now > resetTime d →
     inMemoryRateLimit key windowMs max now c s =
       inMemoryRateLimit key windowMs max now c (delete key s) ∧
     (inMemoryRateLimit key windowMs max now c s).1 !! key =
       Some {| count := 1; resetTime := now + windowMs |} ∧
     admitted (inMemoryRateLimit key windowMs max now c s).2 = true) ∧
  (∀ (s : gmap string entry) (d : entry),
     s !! key = Some d →
     (inMemoryRateLimit key windowMs max (resetTime d) c s).1 !! key =
       Some {| count := count d + 1; resetTime := resetTime d |}) ∧
  (∀ (r : gmap string rval) (rt : Z),
     redis_get now (resetTimeKey key) r = Some rt →
     now > rt →
     admitted <$> (redisRateLimit key windowMs max now no_failure c r).2
       = Some true ∧
     (0 < windowMs →
      rv_value <$> (redisRateLimit key windowMs max now no_failure c r).1 !! key
        = Some 1 ∧
      rv_value <$>
        (redisRateLimit key windowMs max now no_failure c r).1 !! resetTimeKey key
        = Some (now + windowMs)) ∧
     (windowMs <= 0 →
      (redisRateLimit key windowMs max now no_failure c r).1 !! key = None ∧
      (redisRateLimit key windowMs max now no_failure c r).1 !! resetTimeKey key
        = None)).
Proof.
  split; [|split].
  - intros s d Hk Hexp.
    rewrite (inMemory_fresh key _ _ _ _ s)
      by (intros d'; rewrite Hk; by intros [= <-]).
    rewrite (inMemory_fresh key _ _ _ _ (delete key s))
      by (intros d'; by rewrite lookup_delete_eq).
    rewrite (sweep_delete_expired _ _ _ _ Hk Hexp).
    cbn [fst snd admitted]. by rewrite lookup_insert_eq.
  - intros s d Hk.
    rewrite (inMemory_live key _ _ _ _ _ d) by (done || lia).
    cbn [fst]. by rewrite lookup_insert_eq.
  - intros r rt Hrt Hrexp.
    assert (redisRateLimit key windowMs max now no_failure c r =
            (redis_expire now (resetTimeKey key) (ceil_div_1000 windowMs)
               (redis_expire now key (ceil_div_1000 windowMs)
                  (redis_set (resetTimeKey key) (now + windowMs)
                     (redis_set key 1 r))),
             Some (CallNext (set_rate_headers max (max - 1) rt c)))) as ->.
    { unfold redisRateLimit, redis_read. cbn [no_failure orb]. rewrite Hrt.
      by rewrite redis_decide_expired. }
    cbn [fst snd]. split; [done|]. split.
    + intros Hw.
      destruct (redis_reset_lookup key windowMs now r Hw) as [-> ->]. done.
    + intros Hw. by apply redis_reset_lookup_nonpos.
Qed.

Lemma expired_record_is_replaced_witness :
  (inMemoryRateLimit "k" 60000 2 61000 ctx0 {[ "k" := mkEntry 3 60000 ]}).1 !! "k"
    = Some {| count := 1; resetTime := 61000 + 60000 |} ∧
  (inMemoryRateLimit "k" 60000 2 60000 ctx0 {[ "k" := mkEntry 3 60000 ]}).1 !! "k"
    = Some {| count := 3 + 1; resetTime := 60000 |} ∧
  rv_value <$>
    (redisRateLimit "k" 60000 2 61000 no_failure ctx0
       {[ "k" := mkRval 3 None; "k:reset" := mkRval 60000 None ]}).1 !! "k"
    = Some 1 ∧
  (redisRateLimit "k" 0 2 61000 no_failure ctx0
     {[ "k" := mkRval 3 None; "k:reset" := mkRval 60000 None ]}).1 !! "k" = None.
Proof.
  destruct (expired_record_is_replaced "k" 60000 2 61000 ctx0)
    as (Hlocal & _ & Hshared).
  destruct (expired_record_is_replaced "k" 60000 2 60000 ctx0)
    as (_ & Hedge & _).
  destruct (expired_record_is_replaced "k" 0 2 61000 ctx0)
    as (_ & _ & Hzero).
  split; [|split; [|split]].
  - exact (proj1 (proj2 (Hlocal {[ "k" := mkEntry 3 60000 ]} (mkEntry 3 60000)
                           eq_refl eq_refl))).
  - exact (Hedge {[ "k" := mkEntry 3 60000 ]} (mkEntry 3 60000) eq_refl).
  - exact (proj1 (proj1 (proj2 (Hshared
             {[ "k" := mkRval 3 None; "k:reset" := mkRval 60000 None ]} 60000
             eq_refl eq_refl)) eq_refl)).
  - refine (proj1 (proj2 (proj2 (Hzero
             {[ "k" := mkRval 3 None; "k:reset" := mkRval 60000 None ]} 60000
             eq_refl eq_refl)) _)). discriminate.
Defined.

(** ** The shared path never stores the reset instant of a new key *)

(** C2, on the shared path. With [windowMs = 60000] and [max = 2], three
    requests for one key at 0, 10 and 20 are admitted, admitted and
    rejected, with reset instants 60000 and 60010 reported. A fourth
    request at any later instant [t], also long after those instants, is
    rejected again: the first request wrote the counter but no reset
    instant, so no window ever lapses. The local path admits the request
    at 61000 with [remaining = 1] and reset instant 121000. *)
Theorem shared_window_never_lapses (t : Z) :
  admitted <$> (run limiter_shared [k1_at 0; k1_at 10; k1_at 20; k1_at t] state0).2
    = [true; true; false; false] ∧
  (λ o, res_headers (outcome_ctx o) !! "X-RateLimit-Reset") <$>
    (run limiter_shared [k1_at 0; k1_at 10; k1_at 20] state0).2
    = [Some "60000"; Some "60010"; None] ∧
  redis (run limiter_shared [k1_at 0; k1_at 10; k1_at 20] state0).1
    !! resetTimeKey "rate-limit:k1" = None ∧
  (run limiter_local [k1_at 0; k1_at 10; k1_at 20; k1_at 61000] state0).2 !! 3%nat
    = Some (CallNext (set_rate_headers 2 1 121000 (ctx_from "k1"))).
Proof.
  split; [|vm_compute; repeat split; reflexivity].
  rewrite (run_redis_counting limiter_shared "rate-limit:k1" 0).
  - reflexivity.
  - vm_compute. discriminate.
  - split; [reflexivity|]. by left.
  - solve_path.
Qed.

(** ** Requests in flight together *)

(** Resuming a handler twice in a row is handling the request without
    interruption. *)
Lemma step_task_twice (L : Limiter) (rq : Request) (st : State) :
  let s1 := step_task L (Arrived rq) st in
  step_task L s1.2 s1.1 = ((handle L rq st).1, Finished (handle L rq st).2).
Proof.
  cbv zeta. unfold step_task at 2 3, handle, redisRateLimit.
  destruct (l_redisClient L && rq_isReady rq); [|done].
  destruct (redis_read _ _ _ _) as [obs|]; [|done].
  cbn [fst snd step_task].
  by destruct (redis_decide _ _ _ _ _ _ _ _) as [r' [o|]].
Qed.

(** The local path decides in one step: handlers on it never interleave. *)
Lemma step_task_local (L : Limiter) (rq : Request) (st : State) :
  uses_local L rq →
  step_task L (Arrived rq) st = ((handle L rq st).1, Finished (handle L rq st).2).
Proof. intros Hl. unfold step_task, handle. by rewrite Hl. Qed.

(** C3, on the shared path. With [max = 1], two requests for one key are
    in flight together. When both have issued their [GET]s before either
    issues its [SET] (schedule 0,1,0,1), both read an absent counter, both
    compute the count 1 and both are admitted: two admissions with
    [max = 1], and the stored counter is 1 after two admitted requests.
    Handled one after the other (schedule 0,0,1,1) the second is
    rejected. *)
Theorem shared_path_loses_increment :
  let ts := [Arrived (k1_at 0); Arrived (k1_at 0)] in
  let mixed := run_schedule limiter_shared1 [0; 1; 0; 1]%nat state0 ts in
  let serial := run_schedule limiter_shared1 [0; 0; 1; 1]%nat state0 ts in
  task_admitted <$> mixed.2 = [true; true] ∧
  rv_value <$> redis mixed.1 !! "rate-limit:k1" = Some 1 ∧
  task_admitted <$> serial.2 = [true; false].
Proof. vm_compute. repeat split; reflexivity. Qed.

(** ** Fallback to the local store *)

Lemma handle_all_fail (L : Limiter) (rq : Request) (st : State) :
  every_call_fails rq →
  handle L rq st = local_path L rq (inMemoryStore st) (redis st).
Proof.
  intros Hf. unfold handle, redisRateLimit, redis_read.
  destruct (l_redisClient L && rq_isReady rq); [|done].
  by rewrite (Hf 0%nat).
Qed.

Lemma local_path_redis (L : Limiter) (rq : Request) (s : gmap string entry)
    (r : gmap string rval) :
  redis (local_path L rq s r).1 = r.
Proof. done. Qed.

(** Without failures the shared path always reaches a decision. *)
Lemma redisRateLimit_decides (key : string) (windowMs max now : Z)
    (fails : nat → bool) (c : Context) (r : gmap string rval) :
  (∀ i, fails i = false) →
  ∃ r' o, redisRateLimit key windowMs max now fails c r = (r', Some o).
Proof.
  intros Hf. unfold redisRateLimit, redis_read, redis_decide.
  rewrite !Hf. cbn [orb fst snd].
  destruct (decide (now > _)); [by eauto|].
  destruct (decide (_ > max)); by eauto.
Qed.

(** C6. When every Redis command of every request fails, the limiter with
    the Redis client goes through the same states of the local store and
    returns the same outcomes (decision, remaining and reset headers) as
    the limiter without it, and leaves the shared store as it was. Nothing
    records the failures: a following request whose commands succeed is
    decided by the shared store and does not touch the local one. *)
Theorem fallback_is_local (L : Limiter) (rqs : list Request) (st : State) :
  Forall every_call_fails rqs →
  run L rqs st = run (local_only L) rqs st ∧
  redis (run L rqs st).1 = redis st ∧
  ∀ rq, uses_redis L rq →
    ∃ r' o,
      redisRateLimit (l_keyGenerator L (rq_ctx rq)) (l_windowMs L) (l_max L)
        (rq_now rq) (rq_fails rq) (rq_ctx rq) (redis st) = (r', Some o) ∧
      handle L rq (run L rqs st).1 =
        ({| inMemoryStore := inMemoryStore (run L rqs st).1; redis := r' |}, o).
Proof.
  intros Hall.
  assert (run L rqs st = run (local_only L) rqs st ∧
          redis (run L rqs st).1 = redis st) as [Hrun Hredis].
  { revert st. induction Hall as [|rq rqs Hf _ IH]; intros st; [done|].
    rewrite !run_cons. rewrite (handle_all_fail L _ _ Hf).
    change (handle (local_only L) rq st)
      with (local_path L rq (inMemoryStore st) (redis st)).
    destruct (IH (local_path L rq (inMemoryStore st) (redis st)).1) as [Hrun Hr].
    split; [by rewrite Hrun|]. cbn [fst]. by rewrite Hr, local_path_redis. }
  split; [done|]. split; [done|].
  intros rq Hu. pose proof Hu as (Hc & Hr & Hf).
  destruct (redisRateLimit_decides (l_keyGenerator L (rq_ctx rq)) (l_windowMs L)
              (l_max L) (rq_now rq) (rq_fails rq) (rq_ctx rq) (redis st) Hf)
    as (r' & o & Hdec).
  exists r', o. split; [done|].
  unfold handle. rewrite Hc, Hr. cbn [andb]. rewrite Hredis, Hdec. done.
Qed.

Lemma fallback_is_local_witness :
  run limiter_shared [k1_down_at 0; k1_down_at 10; k1_down_at 20] state0 =
  run (local_only limiter_shared) [k1_down_at 0; k1_down_at 10; k1_down_at 20]
    state0.
Proof.
  refine (proj1 (fallback_is_local limiter_shared
                   [k1_down_at 0; k1_down_at 10; k1_down_at 20] state0 _)).
  repeat (apply Forall_cons_2 || apply Forall_nil_2); intros i; reflexivity.
Defined.

(** ** Response headers *)

Lemma set_rate_headers_lookup (max remaining reset : Z) (c : Context) :
  res_headers (set_rate_headers max remaining reset c) !! "X-RateLimit-Limit"
    = Some (String_of max) ∧
  res_headers (set_rate_headers max remaining reset c) !! "X-RateLimit-Remaining"
    = Some (String_of remaining) ∧
  res_headers (set_rate_headers max remaining reset c) !! "X-RateLimit-Reset"
    = Some (String_of reset).
Proof.
  unfold set_rate_headers, header. cbn [res_headers].
  repeat split.
  - by rewrite !lookup_insert_ne, lookup_insert_eq by discriminate.
  - by rewrite lookup_insert_ne, lookup_insert_eq by discriminate.
  - by rewrite lookup_insert_eq.
Qed.

(** On the local path an admitted request carries the limit, a remaining
    count that is not negative, and the reset instant of the record that
    the store holds for its key. *)
Lemma local_admitted_headers (key : string) (windowMs max now : Z)
    (c : Context) (s : gmap string entry) :
  1 <= max →
  admitted (inMemoryRateLimit key windowMs max now c s).2 = true →
  ∃ d remaining,
    (inMemoryRateLimit key windowMs max now c s).1 !! key = Some d ∧
    0 <= remaining ∧
    (inMemoryRateLimit key windowMs max now c s).2 =
      CallNext (set_rate_headers max remaining (resetTime d) c).
Proof.
  intros Hmax Hadm. destruct (s !! key) as [d0|] eqn:Hk.
  - destruct (decide (now > resetTime d0)) as [Hgt|Hle].
    + rewrite inMemory_fresh in * by (intros d; rewrite Hk; by intros [= <-]).
      exists (fresh_entry now windowMs), (max - 1). cbn [fst snd].
      rewrite lookup_insert_eq. repeat split; (done || lia).
    + rewrite (inMemory_live _ _ _ _ _ _ d0) in * by (done || lia).
      cbn [fst snd] in *. destruct (decide (count d0 + 1 > max)); [done|].
      exists {| count := count d0 + 1; resetTime := resetTime d0 |},
        (Z.max 0 (max - (count d0 + 1))).
      rewrite lookup_insert_eq. repeat split; (done || lia).
  - rewrite inMemory_fresh in * by (intros d; by rewrite Hk).
    exists (fresh_entry now windowMs), (max - 1). cbn [fst snd].
    rewrite lookup_insert_eq. repeat split; (done || lia).
Qed.

(** C7, on the shared path. The shared store holds, for the key of client
    ["k1"], the count 2 and the reset instant 60000; [max = 2],
    [windowMs = 60000]. The request at 61000 takes the branch of lines
    79-87: it is admitted with limit 2 and remaining 1, the reset instant
    written to the store is 121000, and the header [X-RateLimit-Reset]
    carries 60000, the instant of the window that has lapsed. The local
    path reports 121000 from the corresponding state. The branch is also
    reached from the empty store, by a request of client ["a:reset"]
    followed by one of client ["a"], which reports the reset instant 1. *)
Theorem shared_reset_header_is_stale :
  let st := {| inMemoryStore := ∅;
               redis := {[ "rate-limit:k1" := mkRval 2 None;
                           "rate-limit:k1:reset" := mkRval 60000 None ]} |} in
  let res := handle limiter_shared (k1_at 61000) st in
  let st_local := {| inMemoryStore := {[ "rate-limit:k1" := mkEntry 2 60000 ]};
                     redis := ∅ |} in
  let res_local := handle limiter_local (k1_at 61000) st_local in
  let trace := run limiter_shared
                 [request_at (ctx_from "a:reset") 1000;
                  request_at (ctx_from "a") 2000] state0 in
  (admitted res.2 = true ∧
   res_headers (outcome_ctx res.2) !! "X-RateLimit-Limit" = Some "2" ∧
   res_headers (outcome_ctx res.2) !! "X-RateLimit-Remaining" = Some "1" ∧
   res_headers (outcome_ctx res.2) !! "X-RateLimit-Reset" = Some "60000" ∧
   rv_value <$> redis res.1 !! "rate-limit:k1:reset" = Some 121000) ∧
  res_headers (outcome_ctx res_local.2) !! "X-RateLimit-Reset" = Some "121000" ∧
  ((λ o, res_headers (outcome_ctx o) !! "X-RateLimit-Reset") <$> trace.2
     = [Some "61000"; Some "1"] ∧
   rv_value <$> redis trace.1 !! "rate-limit:a:reset" = Some 62000).
Proof. vm_compute. repeat split; reflexivity. Qed.

(** ** What a request gets back, and the keys it leaves alone *)

Lemma inMemory_outcome_shape (key : string) (windowMs max now : Z)
    (c : Context) (s : gmap string entry) :
  outcome_shape max c (inMemoryRateLimit key windowMs max now c s).2.
Proof.
  unfold inMemoryRateLimit. cbv zeta.
  destruct (sweep now s !! key) as [d|]; cbn [snd].
  - destruct (decide (now > resetTime d)); cbn [snd].
    + right. eexists _, _. split; [done | lia].
    + destruct (decide (_ > max)); cbn [snd]; [by left|].
      right. eexists _, _. split; [done | lia].
  - right. eexists _, _. split; [done | lia].
Qed.

Lemma redis_decide_outcome_shape (key : string) (windowMs max now : Z)
    (fails : nat → bool) (c : Context) (obs : option Z * option Z)
    (r : gmap string rval) (o : outcome) :
  (redis_decide key windowMs max now fails c obs r).2 = Some o →
  outcome_shape max c o.
Proof.
  unfold redis_decide. cbv zeta.
  destruct (decide (now > _)).
  - destruct (_ || _); cbn [snd]; [done|]. intros [= <-].
    right. eexists _, _. split; [done | lia].
  - destruct (decide (_ > max)); cbn [snd].
    + intros [= <-]. by left.
    + destruct (fails 2%nat); cbn [snd]; [done|]. intros [= <-].
      right. eexists _, _. split; [done | lia].
Qed.

Lemma handle_outcome_shape (L : Limiter) (rq : Request) (st : State) :
  outcome_shape (l_max L) (rq_ctx rq) (handle L rq st).2.
Proof.
  unfold handle, local_path.
  destruct (l_redisClient L && rq_isReady rq);
    [|apply inMemory_outcome_shape].
  unfold redisRateLimit.
  destruct (redis_read _ _ _ _) as [obs|]; [|apply inMemory_outcome_shape].
  destruct (redis_decide _ _ _ _ _ _ _ _) as [r' [o|]] eqn:Hd;
    [|apply inMemory_outcome_shape].
  cbn [snd]. eapply redis_decide_outcome_shape. by rewrite Hd.
Qed.

Lemma redis_set_lookup_ne (k k' : string) (v : Z) (r : gmap string rval) :
  k' ≠ k → redis_set k v r !! k' = r !! k'.
Proof. intros Hne. unfold redis_set. by rewrite lookup_insert_ne. Qed.

Lemma redis_expire_lookup_ne (t secs : Z) (k k' : string) (r : gmap string rval) :
  k' ≠ k → redis_expire t k secs r !! k' = r !! k'.
Proof.
  intros Hne. unfold redis_expire.
  destruct (r !! k) as [v|]; [|done].
  destruct (rv_live t v); [|done].
  destruct (secs <=? 0).
  - by rewrite lookup_delete_ne.
  - by rewrite lookup_insert_ne.
Qed.

Lemma issue_lookup_ne (fails : nat → bool) (i : nat)
    (cmd : gmap string rval → gmap string rval) (r : gmap string rval)
    (k' : string) :
  (∀ r0, cmd r0 !! k' = r0 !! k') → issue fails i cmd r !! k' = r !! k'.
Proof. intros Hcmd. unfold issue. by destruct (fails i). Qed.

Lemma redis_decide_lookup_ne (key : string) (windowMs max now : Z)
    (fails : nat → bool) (c : Context) (obs : option Z * option Z)
    (r : gmap string rval) (k' : string) :
  k' ≠ key → k' ≠ resetTimeKey key →
  (redis_decide key windowMs max now fails c obs r).1 !! k' = r !! k'.
Proof.
  intros Hk Hr. unfold redis_decide. cbv zeta.
  destruct (decide (now > _)).
  - assert (issue fails 5
              (redis_expire now (resetTimeKey key) (ceil_div_1000 windowMs))
              (issue fails 4 (redis_expire now key (ceil_div_1000 windowMs))
                 (issue fails 3 (redis_set (resetTimeKey key) (now + windowMs))
                    (issue fails 2 (redis_set key 1) r))) !! k' = r !! k') as Hfin.
    { rewrite issue_lookup_ne by (intros; by apply redis_expire_lookup_ne).
      rewrite issue_lookup_ne by (intros; by apply redis_expire_lookup_ne).
      rewrite issue_lookup_ne by (intros; by apply redis_set_lookup_ne).
      rewrite issue_lookup_ne by (intros; by apply redis_set_lookup_ne).
      done. }
    by destruct (_ || _).
  - destruct (decide (_ > max)); [done|].
    destruct (fails 2%nat); [done|]. cbn [fst].
    by apply redis_set_lookup_ne.
Qed.

(** A request that the shared path admits leaves its counter under its own
    key, when the window length is positive. *)
Lemma redis_decide_records (key : string) (windowMs max now : Z)
    (fails : nat → bool) (c : Context) (obs : option Z * option Z)
    (r : gmap string rval) (o : outcome) :
  0 < windowMs →
  (redis_decide key windowMs max now fails c obs r).2 = Some o →
  admitted o = true →
  is_Some ((redis_decide key windowMs max now fails c obs r).1 !! key).
Proof.
  intros Hw. unfold redis_decide, issue. cbv zeta.
  destruct (decide (now > _)).
  - destruct (fails 2%nat); [done|]. destruct (fails 3%nat); [done|].
    destruct (fails 4%nat); [done|]. destruct (fails 5%nat); [done|].
    cbn [orb fst snd]. intros _ _.
    destruct (redis_reset_lookup key windowMs now r Hw) as [-> _]. by eexists.
  - destruct (decide (_ > max)); cbn [fst snd].
    + by intros [= <-].
    + destruct (fails 2%nat); cbn [fst snd]; [done|]. intros _ _.
      unfold redis_set. rewrite lookup_insert_eq. by eexists.
Qed.

(** ** The key of a request *)

(** C8, with a key generator that returns the empty key. The limiter
    takes the key as it is: after one request the local store holds its
    only record under the empty key, not under a substituted one. *)
Lemma empty_key_counterexample :
  let st := (handle limiter_empty_key (request_at ctx0 0) state0).1 in
  l_keyGenerator limiter_empty_key ctx0 = "" ∧
  inMemoryStore st !! "" = Some {| count := 1; resetTime := 60000 |} ∧
  dom (inMemoryStore st) = {[ "" ]}.
Proof. vm_compute. repeat split; reflexivity. Qed.

Lemma defaultKeyGenerator_nonempty (c : Context) : defaultKeyGenerator c ≠ "".
Proof. unfold defaultKeyGenerator. discriminate. Qed.

(** C8, as the code has it. The default key generator answers a request
    without a client address (header absent or empty) with the fixed key
    ["rate-limit:unknown"], and never returns the empty key. The
    middleware itself uses the key [key] of the configured generator as it
    is, whatever that key and on every path. In the shared store nothing
    changes outside [key] and its reset key. When the local store decides
    (no ready Redis client, or a Redis command threw), the decision is
    recorded under [key] and every other record is only swept. When the
    shared path decides, the local store is left as it was and, for a
    positive window length, an admitted request leaves its counter under
    [key]. The request always ends in one of the two continuations:
    the rejecting handler with the context as it came, or [next()] with
    the three headers set and [X-RateLimit-Limit] the configured limit. *)
Theorem missing_address_shares_unknown_key (L : Limiter) (rq : Request)
    (st : State) (c : Context) :
  let key := l_keyGenerator L (rq_ctx rq) in
  let shared := redisRateLimit key (l_windowMs L) (l_max L) (rq_now rq)
                  (rq_fails rq) (rq_ctx rq) (redis st) in
  (req_header "x-forwarded-for" c = None ∨
   req_header "x-forwarded-for" c = Some "" →
   defaultKeyGenerator c = "rate-limit:unknown") ∧
  defaultKeyGenerator c ≠ "" ∧
  (∀ k', k' ≠ key → k' ≠ resetTimeKey key →
         redis (handle L rq st).1 !! k' = redis st !! k') ∧
  (l_redisClient L && rq_isReady rq = false ∨ shared.2 = None →
   is_Some (inMemoryStore (handle L rq st).1 !! key) ∧
   ∀ k', k' ≠ key →
         inMemoryStore (handle L rq st).1 !! k' =
           sweep (rq_now_local rq) (inMemoryStore st) !! k') ∧
  (l_redisClient L && rq_isReady rq = true → is_Some shared.2 →
   inMemoryStore (handle L rq st).1 = inMemoryStore st ∧
   (0 < l_windowMs L → admitted (handle L rq st).2 = true →
    is_Some (redis (handle L rq st).1 !! key))) ∧
  ((handle L rq st).2 = CallHandler (rq_ctx rq) ∨
   admitted (handle L rq st).2 = true ∧
   res_headers (outcome_ctx (handle L rq st).2) !! "X-RateLimit-Limit"
     = Some (String_of (l_max L)) ∧
   ∃ remaining reset,
     res_headers (outcome_ctx (handle L rq st).2) !! "X-RateLimit-Remaining"
       = Some (String_of remaining) ∧
     res_headers (outcome_ctx (handle L rq st).2) !! "X-RateLimit-Reset"
       = Some (String_of reset)).
Proof.
  cbv zeta. split; [|split; [|split; [|split; [|split]]]].
  - unfold defaultKeyGenerator. by intros [-> | ->].
  - apply defaultKeyGenerator_nonempty.
  - intros k' Hk Hr. unfold handle.
    destruct (l_redisClient L && rq_isReady rq); [|done].
    unfold redisRateLimit.
    destruct (redis_read _ _ _ _) as [obs|]; [|done].
    pose proof (redis_decide_lookup_ne (l_keyGenerator L (rq_ctx rq))
                  (l_windowMs L) (l_max L) (rq_now rq) (rq_fails rq) (rq_ctx rq)
                  obs (redis st) k' Hk Hr) as Hd.
    by destruct (redis_decide _ _ _ _ _ _ _ _) as [r' [o|]].
  - intros Hpath.
    assert (∃ r', handle L rq st = local_path L rq (inMemoryStore st) r')
      as [r' ->].
    { unfold handle. destruct Hpath as [-> | Hnone]; [by eexists|].
      destruct (l_redisClient L && rq_isReady rq); [|by eexists].
      destruct (redisRateLimit _ _ _ _ _ _ _) as [r' [o|]]; [done | by eexists]. }
    unfold local_path. cbn [fst inMemoryStore]. split.
    + destruct (inMemory_key_after (l_keyGenerator L (rq_ctx rq)) (l_windowMs L)
                  (l_max L) (rq_now_local rq) (rq_ctx rq) (inMemoryStore st))
        as (d & -> & _). by eexists.
    + intros k' Hk. by apply inMemory_other_key.
  - intros Hready [o Ho]. unfold handle. rewrite Hready.
    unfold redisRateLimit in *.
    destruct (redis_read _ _ _ _) as [obs|]; [|done].
    pose proof (redis_decide_records (l_keyGenerator L (rq_ctx rq))
                  (l_windowMs L) (l_max L) (rq_now rq) (rq_fails rq) (rq_ctx rq)
                  obs (redis st) o) as Hrec.
    destruct (redis_decide _ _ _ _ _ _ _ _) as [r' o'].
    cbn [snd] in Ho. subst o'. cbn [fst snd inMemoryStore redis] in *.
    split; [done|]. intros Hw Hadm. by apply Hrec.
  - destruct (handle_outcome_shape L rq st) as [-> | (rem & reset & -> & _)];
      [by left | right].
    cbn [admitted outcome_ctx].
    destruct (set_rate_headers_lookup (l_max L) rem reset (rq_ctx rq))
      as (Hl & Hrem & Hres).
    split; [done|]. split; [done|]. by exists rem, reset.
Qed.

Lemma missing_address_shares_unknown_key_witness :
  defaultKeyGenerator ctx0 = "rate-limit:unknown" ∧
  is_Some (inMemoryStore (handle limiter_empty_key (request_at ctx0 0) state0).1
             !! l_keyGenerator limiter_empty_key ctx0) ∧
  is_Some (inMemoryStore (handle limiter_shared (k1_down_at 5) state0).1
             !! "rate-limit:k1") ∧
  inMemoryStore (handle limiter_shared (k1_at 0) state0).1 = ∅ ∧
  is_Some (redis (handle limiter_shared (k1_at 0) state0).1 !! "rate-limit:k1").
Proof.
  destruct (missing_address_shares_unknown_key limiter_empty_key
              (request_at ctx0 0) state0 ctx0) as (Hk & _ & _ & Hlocal & _).
  destruct (missing_address_shares_unknown_key limiter_shared
              (k1_down_at 5) state0 ctx0) as (_ & _ & _ & Hfallback & _).
  destruct (missing_address_shares_unknown_key limiter_shared
              (k1_at 0) state0 ctx0) as (_ & _ & _ & _ & Hshared & _).
  split; [exact (Hk (or_introl eq_refl))|].
  split; [exact (proj1 (Hlocal (or_introl eq_refl)))|].
  split; [exact (proj1 (Hfallback (or_intror eq_refl)))|].
  destruct (Hshared eq_refl ltac:(vm_compute; by eexists)) as [Hstore Hrec].
  split; [exact Hstore|].
  apply Hrec; [vm_compute; reflexivity | vm_compute; reflexivity].
Defined.

(** ** The counter kept in the shared store *)

Lemma redis_set_bounded (max : Z) (k k' : string) (v : Z) (r : gmap string rval) :
  (k' = k → v <= max) →
  counter_bounded max k r → counter_bounded max k (redis_set k' v r).
Proof.
  intros Hv Hb w. unfold redis_set. destruct (decide (k' = k)) as [->|Hne].
  - rewrite lookup_insert_eq. intros [= <-]. simpl. auto.
  - rewrite lookup_insert_ne by done. apply Hb.
Qed.

Lemma redis_expire_bounded (max t secs : Z) (k k' : string) (r : gmap string rval) :
  counter_bounded max k r → counter_bounded max k (redis_expire t k' secs r).
Proof.
  intros Hb w. unfold redis_expire.
  destruct (r !! k') as [v|] eqn:Hk'; [|apply Hb].
  destruct (rv_live t v); [|apply Hb].
  destruct (secs <=? 0).
  - destruct (decide (k' = k)) as [->|Hne].
    + by rewrite lookup_delete_eq.
    + rewrite lookup_delete_ne by done. apply Hb.
  - destruct (decide (k' = k)) as [->|Hne].
    + rewrite lookup_insert_eq. intros [= <-]. simpl. by apply Hb.
    + rewrite lookup_insert_ne by done. apply Hb.
Qed.

Lemma issue_bounded (max : Z) (k : string) (fails : nat → bool) (i : nat)
    (cmd : gmap string rval → gmap string rval) (r : gmap string rval) :
  (counter_bounded max k r → counter_bounded max k (cmd r)) →
  counter_bounded max k r → counter_bounded max k (issue fails i cmd r).
Proof. unfold issue. destruct (fails i); auto. Qed.

(** Whatever the two [GET]s returned, and whichever commands fail. *)
Lemma redis_decide_bounded (max : Z) (k key : string) (windowMs now : Z)
    (fails : nat → bool) (c : Context) (obs : option Z * option Z)
    (r : gmap string rval) :
  1 <= max →
  resetTimeKey key ≠ k →
  counter_bounded max k r →
  counter_bounded max k (redis_decide key windowMs max now fails c obs r).1.
Proof.
  intros Hmax Hne Hb. unfold redis_decide. cbv zeta.
  destruct (decide (now > _)).
  - assert (counter_bounded max k
              (issue fails 5
                 (redis_expire now (resetTimeKey key) (ceil_div_1000 windowMs))
                 (issue fails 4 (redis_expire now key (ceil_div_1000 windowMs))
                    (issue fails 3
                       (redis_set (resetTimeKey key) (now + windowMs))
                       (issue fails 2 (redis_set key 1) r))))) as Hfin.
    { apply issue_bounded; [apply redis_expire_bounded|].
      apply issue_bounded; [apply redis_expire_bounded|].
      apply issue_bounded; [apply redis_set_bounded; by intros ?|].
      apply issue_bounded; [apply redis_set_bounded; by intros ?|]. done. }
    by destruct (_ || _).
  - destruct (decide (_ > max)) as [Hgt|Hle]; [done|].
    destruct (fails 2%nat); [done|]. cbn [fst].
    apply redis_set_bounded; [intros _; lia | done].
Qed.

Lemma handle_bounded (L : Limiter) (k : string) (rq : Request) (st : State) :
  1 <= l_max L →
  resetTimeKey (l_keyGenerator L (rq_ctx rq)) ≠ k →
  counter_bounded (l_max L) k (redis st) →
  counter_bounded (l_max L) k (redis (handle L rq st).1).
Proof.
  intros Hmax Hne Hb. unfold handle.
  destruct (l_redisClient L && rq_isReady rq); [|done].
  unfold redisRateLimit.
  destruct (redis_read _ _ _ _) as [obs|]; [|done].
  pose proof (redis_decide_bounded (l_max L) k (l_keyGenerator L (rq_ctx rq))
                (l_windowMs L) (rq_now rq) (rq_fails rq) (rq_ctx rq) obs
                (redis st) Hmax Hne Hb) as Hd.
  by destruct (redis_decide _ _ _ _ _ _ _ _) as [r' [o|]].
Qed.

(** C10, where the code breaks it. The claim asks that the counter stored
    under a key never exceeds [max] in a window that has not lapsed. With
    [max = 2], client ["a:reset"] makes one request and client ["a"] makes
    the next. The first leaves the count 1 under ["rate-limit:a:reset"].
    The limiter keeps the reset instant of ["rate-limit:a"] under that
    same key: the second request reads the count 1 as a reset instant
    (line 74), takes the window for lapsed, is admitted, and writes its
    reset instant over the counter of the first client (line 83). That
    counter now reads 62000, far above [max], in a window that has not
    lapsed (no reset instant is stored for it). *)
Lemma reset_key_collision_counterexample :
  let first := request_at (ctx_from "a:reset") 1000 in
  let second := request_at (ctx_from "a") 2000 in
  let st1 := (handle limiter_shared first state0).1 in
  let st := (run limiter_shared [first; second] state0).1 in
  l_keyGenerator limiter_shared (ctx_from "a:reset") = "rate-limit:a:reset" ∧
  resetTimeKey (l_keyGenerator limiter_shared (ctx_from "a")) = "rate-limit:a:reset" ∧
  redis_get 2000 "rate-limit:a:reset" (redis st1) = Some 1 ∧
  admitted (handle limiter_shared second st1).2 = true ∧
  redis_get 3000 "rate-limit:a:reset" (redis st) = Some 62000 ∧
  redis_get 3000 (resetTimeKey "rate-limit:a:reset") (redis st) = None ∧
  ¬ counter_bounded (l_max limiter_shared) "rate-limit:a:reset" (redis st).
Proof.
  cbv zeta. split; [reflexivity|]. split; [reflexivity|].
  split; [vm_compute; reflexivity|]. split; [vm_compute; reflexivity|].
  split; [vm_compute; reflexivity|]. split; [vm_compute; reflexivity|].
  intros Hb.
  specialize (Hb {| rv_value := 62000; rv_deadline := Some 62000 |}).
  assert (62000 <= 2) as Habs; [|lia].
  apply Hb. vm_compute. reflexivity.
Qed.

(** Away from that collision the counter is bounded. On the shared path
    a rejected request leaves the whole state as it was: the incremented
    count is written only when the request is admitted. Hence, for
    [max >= 1], the value stored under a key [k] stays at most [max]
    along every sequence of requests none of which has [k] as its reset
    key, whatever fails on the way. *)
Theorem rejected_request_writes_nothing (L : Limiter) (k : string)
    (rqs : list Request) (st : State) :
  1 <= l_max L →
  Forall (λ rq, resetTimeKey (l_keyGenerator L (rq_ctx rq)) ≠ k) rqs →
  counter_bounded (l_max L) k (redis st) →
  counter_bounded (l_max L) k (redis (run L rqs st).1) ∧
  (∀ rq st', uses_redis L rq →
             admitted (handle L rq st').2 = false →
             (handle L rq st').1 = st').
Proof.
  intros Hmax Hall Hb. split.
  - revert st Hb. induction Hall as [|rq rqs Hne _ IH]; intros st Hb; [done|].
    rewrite run_cons. cbn [fst]. apply IH. by apply handle_bounded.
  - intros rq st' Hu. rewrite (handle_redis _ _ _ Hu).
    destruct Hu as (_ & _ & Hf).
    unfold redis_decide, issue. rewrite !Hf. cbn [orb fst snd].
    destruct (decide (rq_now rq > _)); [done|].
    destruct (decide (_ > l_max L)); [|done].
    intros _. by destruct st'.
Qed.

Lemma rejected_request_writes_nothing_witness :
  counter_bounded 2 "rate-limit:k1"
    (redis (run limiter_shared [k1_at 0; k1_at 10; k1_at 20] state0).1) ∧
  (handle limiter_shared (k1_at 20)
     (run limiter_shared [k1_at 0; k1_at 10] state0).1).1 =
  (run limiter_shared [k1_at 0; k1_at 10] state0).1.
Proof.
  assert (Forall (λ rq, resetTimeKey (l_keyGenerator limiter_shared (rq_ctx rq))
                        ≠ "rate-limit:k1") [k1_at 0; k1_at 10; k1_at 20]) as Hkeys.
  { repeat (apply Forall_cons_2 || apply Forall_nil_2); discriminate. }
  assert (counter_bounded (l_max limiter_shared) "rate-limit:k1" (redis state0))
    as H0.
  { intros v Hv. vm_compute in Hv. discriminate Hv. }
  destruct (rejected_request_writes_nothing limiter_shared "rate-limit:k1"
              [k1_at 0; k1_at 10; k1_at 20] state0 ltac:(vm_compute; discriminate)
              Hkeys H0) as [Hb Hframe].
  split; [exact Hb|].
  apply Hframe; [solve_path | vm_compute; reflexivity].
Defined.

(** * Further properties of the limiter *)

(** ** What a request gets back *)



(** X2. The limiter writes nothing but its three response headers: every
    other response header and all request headers reach the next handler
    as they came in, and a rejected request is handed to the rejecting
    handler with its context untouched (no rate-limit header at all). *)
Theorem limiter_leaves_other_headers (L : Limiter) (rq : Request) (st : State)
    (h : string) :
  h ≠ "X-RateLimit-Limit" →
  h ≠ "X-RateLimit-Remaining" →
  h ≠ "X-RateLimit-Reset" →
  res_headers (outcome_ctx (handle L rq st).2) !! h = res_headers (rq_ctx rq) !! h ∧
  req_headers (outcome_ctx (handle L rq st).2) = req_headers (rq_ctx rq) ∧
  (admitted (handle L rq st).2 = false →
   (handle L rq st).2 = CallHandler (rq_ctx rq)).
Proof.
  intros H1 H2 H3.
  destruct (handle_outcome_shape L rq st) as [-> | (rem & reset & -> & _)].
  - done.
  - cbn [outcome_ctx admitted]. unfold set_rate_headers, header.
    cbn [res_headers req_headers].
    rewrite !lookup_insert_ne by done. done.
Qed.

Lemma limiter_leaves_other_headers_witness :
  res_headers
    (outcome_ctx
       (handle limiter_local
          {| rq_ctx := {| req_headers := {[ "x-forwarded-for" := "k1" ]};
                          res_headers := {[ "X-Powered-By" := "Ultimate Hono" ]} |};
             rq_now := 0; rq_now_local := 0; rq_isReady := false;
             rq_fails := no_failure |} state0).2) !! "X-Powered-By"
  = Some "Ultimate Hono".
Proof.
  refine (proj1 (limiter_leaves_other_headers limiter_local _ state0
                   "X-Powered-By" _ _ _)); discriminate.
Defined.

(** ** Which store a request touches *)



(** ** Keys do not interfere on the local path *)

Lemma sweep_lookup_congr (t : Z) (s s' : gmap string entry) (k : string) :
  s !! k = s' !! k → sweep t s !! k = sweep t s' !! k.
Proof. intros Heq. by rewrite !sweep_lookup, Heq. Qed.

Lemma sweep_sweep_lookup (lo t : Z) (s : gmap string entry) (k : string) :
  lo <= t → sweep t (sweep lo s) !! k = sweep t s !! k.
Proof.
  intros Hle. rewrite (sweep_lookup t (sweep lo s)), !sweep_lookup.
  destruct (s !! k) as [d|]; [|done].
  destruct (decide (lo > resetTime d)); [|done].
  by rewrite decide_True by lia.
Qed.

(** The decision for a key and the record left for it depend only on
    what the clean-up loop leaves of that key. *)
Lemma inMemory_depends_on_view (key : string) (windowMs max now : Z)
    (c : Context) (s s' : gmap string entry) :
  sweep now s !! key = sweep now s' !! key →
  (inMemoryRateLimit key windowMs max now c s).2 =
    (inMemoryRateLimit key windowMs max now c s').2 ∧
  (inMemoryRateLimit key windowMs max now c s).1 !! key =
    (inMemoryRateLimit key windowMs max now c s').1 !! key.
Proof.
  intros Hv. unfold inMemoryRateLimit. cbv zeta. rewrite Hv.
  destruct (sweep now s' !! key) as [d|]; cbn [fst snd].
  - destruct (decide (now > resetTime d)); cbn [fst snd].
    + by rewrite !lookup_insert_eq.
    + destruct (decide (_ > max)); cbn [fst snd]; by rewrite !lookup_insert_eq.
  - by rewrite !lookup_insert_eq.
Qed.

Lemma decisions_for_cons (L : Limiter) (k : string) (rq : Request)
    (rqs : list Request) (st : State) :
  decisions_for L k (rq :: rqs) st =
  if decide (l_keyGenerator L (rq_ctx rq) = k)
  then (handle L rq st).2 :: decisions_for L k rqs (handle L rq st).1
  else decisions_for L k rqs (handle L rq st).1.
Proof.
  unfold decisions_for. rewrite run_cons. cbn [snd zip zip_with].
  destruct (decide (l_keyGenerator L (rq_ctx rq) = k)) as [Hk|Hk].
  - by rewrite filter_cons_True by done.
  - by rewrite filter_cons_False by done.
Qed.

Lemma decisions_for_filter_gen (L : Limiter) (k : string) (rqs : list Request)
    (st st' : State) (lo : Z) :
  Forall (uses_local L) rqs →
  clocks_from lo (rq_now_local <$> rqs) →
  (∀ t, lo <= t →
        sweep t (inMemoryStore st) !! k = sweep t (inMemoryStore st') !! k) →
  decisions_for L k rqs st =
  (run L (filter (λ rq, l_keyGenerator L (rq_ctx rq) = k) rqs) st').2.
Proof.
  revert st st' lo. induction rqs as [|rq rqs IH]; intros st st' lo Hloc Hclk Hv.
  - done.
  - apply Forall_cons in Hloc as [Hl Hloc]. destruct Hclk as [Hlo Hclk].
    rewrite decisions_for_cons.
    rewrite (handle_local _ _ _ Hl). unfold local_path. cbn [fst snd].
    destruct (decide (l_keyGenerator L (rq_ctx rq) = k)) as [Hk|Hk].
    + rewrite filter_cons_True by done. rewrite run_cons.
      rewrite (handle_local _ _ _ Hl). unfold local_path. cbn [fst snd].
      rewrite Hk.
      destruct (inMemory_depends_on_view k (l_windowMs L) (l_max L)
                  (rq_now_local rq) (rq_ctx rq) (inMemoryStore st)
                  (inMemoryStore st') (Hv _ Hlo)) as [Ho Hs].
      rewrite Ho. f_equal.
      apply (IH _ _ (rq_now_local rq)); [done | done |].
      intros t _. cbn [inMemoryStore]. by apply sweep_lookup_congr.
    + rewrite filter_cons_False by done.
      apply (IH _ _ (rq_now_local rq)); [done | done |].
      intros t Ht. cbn [inMemoryStore].
      rewrite (sweep_lookup_congr t _ (sweep (rq_now_local rq) (inMemoryStore st)))
        by (apply inMemory_other_key; congruence).
      rewrite sweep_sweep_lookup by done. apply Hv. lia.
Qed.

(** X4. On the local path, with clock readings that never go back, the
    requests of other keys do not change what the requests of key [k]
    get: their outcomes in any trace are the outcomes obtained when the
    requests of [k] are handled alone, from the same state. *)
Theorem other_keys_do_not_interfere (L : Limiter) (k : string)
    (rqs : list Request) (st : State) (lo : Z) :
  Forall (uses_local L) rqs →
  clocks_from lo (rq_now_local <$> rqs) →
  decisions_for L k rqs st =
  (run L (filter (λ rq, l_keyGenerator L (rq_ctx rq) = k) rqs) st).2.
Proof.
  intros Hloc Hclk. by apply (decisions_for_filter_gen L k rqs st st lo).
Qed.

Lemma other_keys_do_not_interfere_witness :
  decisions_for limiter_local "rate-limit:k1"
    [k1_at 0; request_at (ctx_from "k2") 5; k1_at 10;
     request_at (ctx_from "k2") 15; request_at (ctx_from "k2") 17; k1_at 20]
    state0 =
  (run limiter_local [k1_at 0; k1_at 10; k1_at 20] state0).2.
Proof.
  refine (other_keys_do_not_interfere limiter_local "rate-limit:k1"
            [k1_at 0; request_at (ctx_from "k2") 5; k1_at 10;
             request_at (ctx_from "k2") 15; request_at (ctx_from "k2") 17;
             k1_at 20] state0 0 _ _).
  - solve_path.
  - cbn. repeat split; lia.
Defined.

(** ** Handlers of the local path in flight together *)

Lemma filter_length_insert {A : Type} (f : A → bool) (ts : list A) (i : nat)
    (x y : A) :
  ts !! i = Some x →
  (length (filter (λ tk, f tk = true) (<[i := y]> ts)) + (if f x then 1 else 0) =
   length (filter (λ tk, f tk = true) ts) + (if f y then 1 else 0))%nat.
Proof.
  revert i. induction ts as [|z ts IH]; intros i Hi; [done|].
  destruct i as [|i].
  - injection Hi as ->. cbn [insert list_insert]. rewrite !filter_cons.
    clear IH. destruct (f x), (f y); repeat case_decide;
      cbn [length]; (lia || congruence).
  - specialize (IH i Hi). simpl. rewrite !filter_cons.
    case_decide; cbn [length]; lia.
Qed.

Lemma filter_length_all (f : task → bool) (ts : list task) :
  Forall (λ tk, f tk = true) ts →
  length (filter (λ tk, f tk = true) ts) = length ts.
Proof.
  induction 1 as [|x ts Hx _ IH]; [done|].
  rewrite filter_cons_True by done. cbn [length]. by rewrite IH.
Qed.

(** One step of a handler of the local path. *)
Lemma step_local_task (L : Limiter) (k : string) (t : Z) (n : nat)
    (rq : Request) (st : State) :
  1 <= l_max L → 0 <= l_windowMs L →
  local_task L k t (Arrived rq) →
  window_after k t (l_windowMs L) n (inMemoryStore st) →
  ∃ o, step_task L (Arrived rq) st = ((handle L rq st).1, Finished o) ∧
       admitted o = bool_decide (Z.of_nat (S n) <= l_max L) ∧
       window_after k t (l_windowMs L) (S n) (inMemoryStore (handle L rq st).1).
Proof.
  intros Hmax Hw (Hl & Hk & Ht) Hwin.
  exists (handle L rq st).2. split; [by apply step_task_local|].
  rewrite (handle_local _ _ _ Hl). unfold local_path. rewrite Hk, Ht.
  cbn [fst snd inMemoryStore]. destruct n as [|n]; cbn [window_after] in *.
  - rewrite inMemory_fresh by done. cbn [fst snd admitted].
    rewrite lookup_insert_eq. split.
    + by rewrite bool_decide_eq_true_2 by lia.
    + done.
  - rewrite (inMemory_live k _ _ _ _ _ _ Hwin) by (cbn; lia).
    cbn [fst snd count resetTime]. rewrite lookup_insert_eq. split.
    + destruct (decide (_ > l_max L)); cbn [admitted].
      * by rewrite bool_decide_eq_false_2 by lia.
      * by rewrite bool_decide_eq_true_2 by lia.
    + do 2 f_equal. lia.
Qed.

Lemma run_schedule_local (L : Limiter) (k : string) (t : Z) (sched : list nat)
    (st : State) (ts : list task) :
  1 <= l_max L → 0 <= l_windowMs L →
  Forall (local_task L k t) ts →
  window_after k t (l_windowMs L) (count_finished ts) (inMemoryStore st) →
  count_admitted ts = (Z.to_nat (l_max L) `min` count_finished ts)%nat →
  let res := run_schedule L sched st ts in
  Forall (local_task L k t) res.2 ∧
  length res.2 = length ts ∧
  count_admitted res.2 = (Z.to_nat (l_max L) `min` count_finished res.2)%nat ∧
  (∀ i, (i < length ts)%nat →
        i ∈ sched ∨ (∃ o, ts !! i = Some (Finished o)) →
        ∃ o, res.2 !! i = Some (Finished o)).
Proof.
  intros Hmax Hw. revert st ts.
  induction sched as [|j sched IH]; intros st ts Hts Hwin Hadm; cbv zeta.
  - cbn [run_schedule snd]. repeat split; [done..|].
    intros i _ [Hin | Hfin]; [by apply elem_of_nil in Hin | done].
  - cbn [run_schedule]. destruct (ts !! j) as [tk|] eqn:Hj.
    + assert (local_task L k t tk) as Htk
        by (eapply Forall_lookup_1; eauto).
      assert (∃ st' o, step_task L tk st = (st', Finished o) ∧
                Forall (local_task L k t) (<[j := Finished o]> ts) ∧
                window_after k t (l_windowMs L)
                  (count_finished (<[j := Finished o]> ts)) (inMemoryStore st') ∧
                count_admitted (<[j := Finished o]> ts) =
                  (Z.to_nat (l_max L) `min`
                     count_finished (<[j := Finished o]> ts))%nat)
        as (st' & o & Hstep & Hts' & Hwin' & Hadm').
      { destruct tk as [rq| |o]; [|done|].
        - destruct (step_local_task L k t (count_finished ts) rq st Hmax Hw
                      Htk Hwin) as (o & Hstep & Ho & Hwin').
          exists (handle L rq st).1, o. split; [done|].
          pose proof (filter_length_insert is_finished ts j (Arrived rq)
                        (Finished o) Hj) as Hf.
          pose proof (filter_length_insert task_admitted ts j (Arrived rq)
                        (Finished o) Hj) as Ha.
          cbn [is_finished task_admitted] in Hf, Ha.
          fold (count_finished (<[j := Finished o]> ts)) in Hf.
          fold (count_finished ts) in Hf.
          fold (count_admitted (<[j := Finished o]> ts)) in Ha.
          fold (count_admitted ts) in Ha.
          assert (count_finished (<[j := Finished o]> ts)
                  = S (count_finished ts)) as -> by lia.
          split; [|split; [done|]].
          + apply Forall_insert; done.
          + rewrite Ho in Ha. case_bool_decide; lia.
        - exists st, o. split; [done|].
          rewrite list_insert_id by done. done. }
      rewrite Hstep. cbn [fst snd].
      destruct (IH st' (<[j := Finished o]> ts) Hts' Hwin' Hadm')
        as (Hres & Hlen & Hcnt & Hfin).
      rewrite length_insert in Hlen.
      split; [done|]. split; [done|]. split; [done|].
      intros i Hi Hcase. apply Hfin; [by rewrite length_insert|].
      destruct (decide (i = j)) as [->|Hne].
      * right. exists o. by rewrite list_lookup_insert_eq.
      * destruct Hcase as [Hin | (o' & Ho')].
        -- left. apply elem_of_cons in Hin as [?|?]; [done | done].
        -- right. exists o'. by rewrite list_lookup_insert_ne.
    + destruct (IH st ts Hts Hwin Hadm) as (Hres & Hlen & Hcnt & Hfin).
      split; [done|]. split; [done|]. split; [done|].
      intros i Hi [Hin | Hf]; apply Hfin; try done; [|by right].
      apply elem_of_cons in Hin as [->|?]; [|by left].
      apply lookup_lt_is_Some_2 in Hi as [? Hsome]. congruence.
Qed.

Lemma count_arrived (rqs : list Request) :
  count_finished (Arrived <$> rqs) = 0%nat ∧
  count_admitted (Arrived <$> rqs) = 0%nat.
Proof.
  unfold count_finished, count_admitted.
  induction rqs as [|rq rqs [IHf IHa]]; [done|].
  rewrite fmap_cons, !filter_cons_False by done. done.
Qed.

(** X5. On the local path the decision is taken without suspension, so
    handlers of one key that are in flight together (same clock reading,
    no live record before them, limit at least 1, window length not
    negative) are decided as if one after the other: in whatever order
    the event loop runs them, the number admitted is the limit, or the
    number of handlers run if that is smaller; when every handler is run,
    it is [min max C]. *)
Theorem local_path_any_schedule (L : Limiter) (k : string) (t : Z)
    (rqs : list Request) (sched : list nat) (st : State) :
  1 <= l_max L →
  0 <= l_windowMs L →
  Forall (λ rq, uses_local L rq ∧ l_keyGenerator L (rq_ctx rq) = k ∧
                rq_now_local rq = t) rqs →
  (∀ d, inMemoryStore st !! k = Some d → t > resetTime d) →
  count_admitted (run_schedule L sched st (Arrived <$> rqs)).2 =
    (Z.to_nat (l_max L) `min`
       count_finished (run_schedule L sched st (Arrived <$> rqs)).2)%nat ∧
  ((∀ i, (i < length rqs)%nat → i ∈ sched) →
   count_admitted (run_schedule L sched st (Arrived <$> rqs)).2 =
     (Z.to_nat (l_max L) `min` length rqs)%nat).
Proof.
  intros Hmax Hw Hall Hfresh.
  destruct (count_arrived rqs) as [Hf0 Ha0].
  destruct (run_schedule_local L k t sched st (Arrived <$> rqs) Hmax Hw)
    as (Hres & Hlen & Hcnt & Hfin).
  - apply Forall_fmap. eapply Forall_impl; [exact Hall|]. by intros rq.
  - by rewrite Hf0.
  - rewrite Hf0, Ha0. lia.
  - split; [done|]. intros Hcover. rewrite Hcnt. f_equal.
    rewrite length_fmap in Hlen. rewrite <- Hlen.
    apply filter_length_all. apply Forall_lookup_2. intros i tk Hi.
    destruct (Hfin i) as (o & Ho).
    + apply lookup_lt_Some in Hi. rewrite length_fmap. by rewrite Hlen in Hi.
    + left. apply Hcover. apply lookup_lt_Some in Hi. by rewrite Hlen in Hi.
    + rewrite Ho in Hi. by injection Hi as <-.
Qed.

Lemma local_path_any_schedule_witness :
  count_admitted
    (run_schedule limiter_local [2; 0; 1]%nat state0
       (Arrived <$> [k1_at 0; k1_at 0; k1_at 0])).2 =
  (Z.to_nat 2 `min` 3)%nat.
Proof.
  refine (proj2 (local_path_any_schedule limiter_local "rate-limit:k1" 0
                   [k1_at 0; k1_at 0; k1_at 0] [2; 0; 1]%nat state0 _ _ _ _) _).
  - vm_compute. discriminate.
  - vm_compute. discriminate.
  - solve_path.
  - intros d Hd. vm_compute in Hd. discriminate Hd.
  - intros i Hi. cbn [length] in Hi.
    destruct i as [|[|[|i]]]; [set_solver.. | lia].
Defined.

(** ** What the stores hold after a window *)

Lemma run_redis_counting_state (L : Limiter) (k : string) (n : Z)
    (rqs : list Request) (st : State) :
  0 <= l_windowMs L →
  n <= l_max L →
  redis_counting k n (redis st) →
  Forall (λ rq, uses_redis L rq ∧ l_keyGenerator L (rq_ctx rq) = k) rqs →
  redis_counting k (Z.min (n + Z.of_nat (length rqs)) (l_max L))
    (redis (run L rqs st).1).
Proof.
  intros Hw. revert n st. induction rqs as [|rq rqs IH]; intros n st Hn Hcnt Hall.
  - cbn [run fst length]. by replace (Z.min (n + Z.of_nat 0) (l_max L)) with n by lia.
  - apply Forall_cons in Hall as [[Hu Hkey] Hall].
    rewrite run_cons. cbn [fst]. rewrite (handle_redis_counting L k n) by done.
    destruct (decide (n + 1 > l_max L)) as [Hgt|Hle]; cbn [fst].
    + replace (Z.min (n + Z.of_nat (length (rq :: rqs))) (l_max L))
        with (Z.min (n + Z.of_nat (length rqs)) (l_max L))
        by (cbn [length]; lia).
      by apply IH.
    + replace (Z.min (n + Z.of_nat (length (rq :: rqs))) (l_max L))
        with (Z.min (n + 1 + Z.of_nat (length rqs)) (l_max L))
        by (cbn [length]; lia).
      apply IH; [lia | | done]. cbn [redis]. by eapply redis_counting_set.
Qed.

(** X6. The two paths count differently. On the local path every request
    of a window is counted, the rejected ones too: after the window's
    requests the record holds their number and the reset instant fixed by
    the first one. On the shared path (key with no stored counter and no
    stored reset instant, limit at least 1, window length not negative)
    only admitted requests are written: the counter stops at the limit, and it carries no time to
    live. *)
Theorem stored_count_after_window (L : Limiter) (k : string) (rq0 : Request)
    (rqs : list Request) (st : State) :
  Forall (λ rq, l_keyGenerator L (rq_ctx rq) = k) (rq0 :: rqs) →
  (Forall (uses_local L) (rq0 :: rqs) →
   (∀ d, inMemoryStore st !! k = Some d → rq_now_local rq0 > resetTime d) →
   Forall (λ rq, rq_now_local rq <= rq_now_local rq0 + l_windowMs L) rqs →
   inMemoryStore (run L (rq0 :: rqs) st).1 !! k =
     Some {| count := Z.of_nat (length (rq0 :: rqs));
             resetTime := rq_now_local rq0 + l_windowMs L |}) ∧
  (Forall (uses_redis L) (rq0 :: rqs) →
   0 <= l_windowMs L → 1 <= l_max L →
   redis st !! k = None → redis st !! resetTimeKey k = None →
   redis (run L (rq0 :: rqs) st).1 !! k =
     Some {| rv_value := Z.min (Z.of_nat (length (rq0 :: rqs))) (l_max L);
             rv_deadline := None |}).
Proof.
  intros Hkeys. split.
  - intros [Hl0 Hl]%Forall_cons Hfresh Hin.
    apply Forall_cons in Hkeys as [Hk0 Hk].
    rewrite run_cons, (handle_local _ _ _ Hl0). unfold local_path.
    rewrite Hk0, inMemory_fresh by done. cbn [fst snd].
    destruct (run_local_window L k (rq_now_local rq0 + l_windowMs L) 1 rqs
                {| inMemoryStore :=
                     <[k := fresh_entry (rq_now_local rq0) (l_windowMs L)]>
                       (sweep (rq_now_local rq0) (inMemoryStore st));
                   redis := redis st |}) as [_ Hs].
    + cbn [inMemoryStore]. by rewrite lookup_insert_eq.
    + rewrite Forall_forall in *. intros rq Hrq. auto.
    + rewrite Hs. do 2 f_equal. cbn [length]. lia.
  - intros Hred Hw Hmax Hk Hr.
    destruct (run_redis_counting_state L k 0 (rq0 :: rqs) st Hw) as [_ Hfin].
    + lia.
    + split; [done|]. by left.
    + rewrite Forall_forall in *. intros rq Hrq. auto.
    + destruct Hfin as [[Habs _] | Hfin]; [cbn [length] in Habs; lia|].
      rewrite Hfin. do 2 f_equal.
Qed.

Lemma stored_count_after_window_witness :
  inMemoryStore (run limiter_local [k1_at 0; k1_at 10; k1_at 20; k1_at 30] state0).1
    !! "rate-limit:k1" =
    Some {| count := Z.of_nat 4; resetTime := 0 + 60000 |} ∧
  redis (run limiter_shared [k1_at 0; k1_at 10; k1_at 20; k1_at 30] state0).1
    !! "rate-limit:k1" =
    Some {| rv_value := Z.min (Z.of_nat 4) 2; rv_deadline := None |}.
Proof.
  split.
  - refine (proj1 (stored_count_after_window limiter_local "rate-limit:k1"
                     (k1_at 0) [k1_at 10; k1_at 20; k1_at 30] state0 _) _ _ _);
      eval_hyp.
  - refine (proj2 (stored_count_after_window limiter_shared "rate-limit:k1"
                     (k1_at 0) [k1_at 10; k1_at 20; k1_at 30] state0 _)
              _ _ _ _ _); eval_hyp.
Defined.

(** ** Configuration *)



(** X8. The limiter that [routes/api.router.ts] installs on every API
    route ([windowMs: 60000], [max: 100], no other option): whatever the
    environment, it never uses Redis, and for one client address it admits
    the first 100 requests of a window and rejects the following ones. *)
Theorem apiRouter_admits_100_per_minute (env : Env) (ip : string)
    (rq0 : Request) (rqs : list Request) (st : State) :
  ip ≠ "" →
  Forall (λ rq, req_header "x-forwarded-for" (rq_ctx rq) = Some ip) (rq0 :: rqs) →
  (∀ d, inMemoryStore st !! ("rate-limit:" +:+ ip) = Some d →
        rq_now_local rq0 > resetTime d) →
  Forall (λ rq, rq_now_local rq <= rq_now_local rq0 + 60000) rqs →
  admits_up_to 100 (run (apiRouter_rateLimit env) (rq0 :: rqs) st).2 ∧
  redis (run (apiRouter_rateLimit env) (rq0 :: rqs) st).1 = redis st.
Proof.
  intros Hip Hhdr Hfresh Hin.
  assert (Forall (uses_local (apiRouter_rateLimit env)) (rq0 :: rqs)) as Hloc.
  { apply Forall_forall. by intros rq _. }
  assert (Forall (λ rq, l_keyGenerator (apiRouter_rateLimit env) (rq_ctx rq)
                        = "rate-limit:" +:+ ip) (rq0 :: rqs)) as Hkeys.
  { eapply Forall_impl; [exact Hhdr|]. intros rq Hrq. cbv beta in Hrq.
    change (l_keyGenerator (apiRouter_rateLimit env) (rq_ctx rq))
      with (defaultKeyGenerator (rq_ctx rq)).
    unfold defaultKeyGenerator. rewrite Hrq. cbn [str_or].
    by rewrite decide_False by done. }
  split.
  - apply admits_up_to_intro.
    rewrite run_length,
      (run_local_fresh (apiRouter_rateLimit env) ("rate-limit:" +:+ ip))
      by done.
    rewrite fmap_cons, local_window_outcomes_admitted.
    cbn [length]. rewrite window_decisions_cons.
    by rewrite bool_decide_eq_true_2 by (vm_compute; discriminate).
  - clear Hkeys Hfresh Hin Hhdr. revert st.
    induction (rq0 :: rqs) as [|rq l IH]; intros st; [done|].
    apply Forall_cons in Hloc as [Hl Hloc].
    rewrite run_cons. cbn [fst]. rewrite IH by done.
    by rewrite (handle_local _ _ _ Hl).
Qed.

Lemma apiRouter_admits_100_per_minute_witness :
  admits_up_to 100 (run (apiRouter_rateLimit env0) [k1_at 0; k1_at 10] state0).2.
Proof.
  refine (proj1 (apiRouter_admits_100_per_minute env0 "k1" (k1_at 0) [k1_at 10]
                   state0 _ _ _ _)).
  - discriminate.
  - solve_path.
  - intros d Hd. vm_compute in Hd. discriminate Hd.
  - repeat (apply Forall_cons_2 || apply Forall_nil_2). vm_compute. discriminate.
Defined.

(** ** Keys of the default generator *)

(** X9. The default key generator separates clients by address: two
    requests get the same key exactly when their addresses, after the
    replacement of an absent or empty one by ["unknown"], are the same. In
    particular a client that sends the address ["unknown"] shares the
    counter of the clients that send none. *)
Theorem default_keys_separate_addresses (c1 c2 : Context) :
  (defaultKeyGenerator c1 = defaultKeyGenerator c2 ↔
   str_or (req_header "x-forwarded-for" c1) "unknown" =
   str_or (req_header "x-forwarded-for" c2) "unknown") ∧
  (∀ a b, req_header "x-forwarded-for" c1 = Some a →
          req_header "x-forwarded-for" c2 = Some b →
          a ≠ "" → b ≠ "" → a ≠ b →
          defaultKeyGenerator c1 ≠ defaultKeyGenerator c2) ∧
  (req_header "x-forwarded-for" c1 = Some "unknown" →
   req_header "x-forwarded-for" c2 = None →
   defaultKeyGenerator c1 = defaultKeyGenerator c2).
Proof.
  assert (defaultKeyGenerator c1 = defaultKeyGenerator c2 ↔
          str_or (req_header "x-forwarded-for" c1) "unknown" =
          str_or (req_header "x-forwarded-for" c2) "unknown") as Hiff.
  { unfold defaultKeyGenerator. split; [|by intros ->].
    apply (inj (String.app "rate-limit:")). }
  split; [done|]. split.
  - intros a b Ha Hb Ha0 Hb0 Hab Heq. apply Hiff in Heq.
    rewrite Ha, Hb in Heq. cbn [str_or] in Heq.
    rewrite !decide_False in Heq by done. done.
  - intros H1 H2. apply Hiff. by rewrite H1, H2.
Qed.

Lemma default_keys_separate_addresses_witness :
  defaultKeyGenerator (ctx_from "10.0.0.1") ≠ defaultKeyGenerator (ctx_from "10.0.0.2") ∧
  defaultKeyGenerator (ctx_from "unknown") = defaultKeyGenerator ctx0.
Proof.
  split.
  - refine (proj1 (proj2 (default_keys_separate_addresses (ctx_from "10.0.0.1")
                            (ctx_from "10.0.0.2"))) "10.0.0.1" "10.0.0.2"
              _ _ _ _ _); (reflexivity || discriminate).
  - refine (proj2 (proj2 (default_keys_separate_addresses (ctx_from "unknown")
                            ctx0)) _ _); reflexivity.
Defined.

(** ** Time to live of the shared keys *)

Lemma ceil_div_1000_bounds (w : Z) :
  w <= ceil_div_1000 w * 1000 < w + 1000.
Proof.
  unfold ceil_div_1000.
  pose proof (Z.div_mod (- w) 1000 ltac:(lia)) as Hdm.
  pose proof (Z.mod_pos_bound (- w) 1000 ltac:(lia)) as Hb.
  lia.
Qed.

(** X10. The time to live that the reset branch gives to the counter and
    to the reset instant, [Math.ceil(windowMs / 1000)] seconds, is at
    least the window length and exceeds it by less than a second: at every
    instant before the new reset instant both keys are still read with the
    values written, the count 1 and the instant [now + windowMs]. *)
Theorem shared_keys_outlive_window (key : string) (windowMs max now : Z)
    (c : Context) (r : gmap string rval) (rt : Z) :
  0 < windowMs →
  redis_get now (resetTimeKey key) r = Some rt →
  now > rt →
  windowMs <= ceil_div_1000 windowMs * 1000 < windowMs + 1000 ∧
  ∀ t, now <= t < now + windowMs →
    redis_get t key (redisRateLimit key windowMs max now no_failure c r).1
      = Some 1 ∧
    redis_get t (resetTimeKey key)
      (redisRateLimit key windowMs max now no_failure c r).1
      = Some (now + windowMs).
Proof.
  intros Hw Hrt Hexp. pose proof (ceil_div_1000_bounds windowMs) as Hb.
  split; [done|]. intros t Ht.
  unfold redisRateLimit, redis_read. cbn [no_failure orb]. rewrite Hrt.
  rewrite redis_decide_expired by done. cbn [fst].
  destruct (redis_reset_lookup key windowMs now r Hw) as [Hk Hr].
  unfold redis_get. rewrite Hk, Hr. cbn [rv_live rv_deadline rv_value].
  assert ((t <? now + ceil_div_1000 windowMs * 1000) = true) as -> by lia.
  done.
Qed.

Lemma shared_keys_outlive_window_witness :
  redis_get 62499 "k"
    (redisRateLimit "k" 1500 2 61000 no_failure ctx0
       {[ "k" := mkRval 3 None; "k:reset" := mkRval 60000 None ]}).1 = Some 1.
Proof.
  refine (proj1 (proj2 (shared_keys_outlive_window "k" 1500 2 61000 ctx0
                          {[ "k" := mkRval 3 None; "k:reset" := mkRval 60000 None ]}
                          60000 _ _ _) 62499 _)); (reflexivity || lia).
Defined.

(** * Properties of authentication and authorization *)

Lemma hasRoles_true (userRoles requiredRoles : list string) :
  Auth.hasRoles userRoles requiredRoles = true ↔
  ∀ role, role ∈ requiredRoles → role ∈ userRoles.
Proof.
  unfold Auth.hasRoles. rewrite forallb_forall. split.
  - intros H role Hin. apply list_elem_of_In in Hin.
    specialize (H role Hin). by apply bool_decide_eq_true_1 in H.
  - intros H role Hin. apply bool_decide_eq_true_2. apply H.
    by apply list_elem_of_In.
Qed.

(** X11. [hasRoles] holds exactly when every required role is one of the
    user's roles. Hence an empty requirement lets every user through, and
    neither the order nor repetitions in the two lists matter. *)
Theorem hasRoles_is_inclusion (userRoles requiredRoles : list string) :
  (Auth.hasRoles userRoles requiredRoles = true ↔
   ∀ role, role ∈ requiredRoles → role ∈ userRoles) ∧
  Auth.hasRoles userRoles [] = true ∧
  (∀ userRoles' requiredRoles',
     (∀ role, role ∈ userRoles ↔ role ∈ userRoles') →
     (∀ role, role ∈ requiredRoles ↔ role ∈ requiredRoles') →
     Auth.hasRoles userRoles' requiredRoles' =
     Auth.hasRoles userRoles requiredRoles).
Proof.
  split; [apply hasRoles_true|]. split; [done|].
  intros u' r' Hu Hr.
  destruct (Auth.hasRoles userRoles requiredRoles) eqn:H1.
  - apply hasRoles_true. intros role Hin. apply Hu.
    apply (proj1 (hasRoles_true _ _) H1). by apply Hr.
  - destruct (Auth.hasRoles u' r') eqn:H2; [|done].
    rewrite <- H1. symmetry. apply hasRoles_true. intros role Hin.
    apply Hu. apply (proj1 (hasRoles_true _ _) H2). by apply Hr.
Qed.

Lemma hasRoles_is_inclusion_witness :
  Auth.hasRoles ["admin"; "user"; "user"] ["user"; "admin"] =
  Auth.hasRoles ["user"; "admin"] ["admin"; "user"; "admin"].
Proof.
  refine (proj2 (proj2 (hasRoles_is_inclusion ["user"; "admin"]
                          ["admin"; "user"; "admin"]))
            ["admin"; "user"; "user"] ["user"; "admin"] _ _);
    intros role; rewrite !elem_of_cons, !elem_of_nil; tauto.
Defined.

Lemma starts_with_app (p s : string) :
  Auth.starts_with p (p +:+ s) = true.
Proof.
  induction p as [|a p IH]; [done|].
  change (String a p +:+ s) with (String a (p +:+ s)).
  cbn [Auth.starts_with]. by rewrite decide_True.
Qed.

Lemma drop_chars_app (p s : string) :
  Auth.drop_chars (String.length p) (p +:+ s) = s.
Proof.
  induction p as [|a p IH]; [by destruct s|].
  change (String a p +:+ s) with (String a (p +:+ s)). done.
Qed.

Lemma starts_with_true (p s : string) :
  Auth.starts_with p s = true →
  s = p +:+ Auth.drop_chars (String.length p) s.
Proof.
  revert s. induction p as [|a p IH]; intros s Hs.
  - by destruct s.
  - destruct s as [|b s]; [done|]. cbn [Auth.starts_with] in Hs.
    destruct (decide (a = b)) as [->|]; [|done].
    change (String b p +:+ ?x) with (String b (p +:+ x)).
    cbn [String.length Auth.drop_chars]. f_equal. by apply IH.
Qed.

Lemma remove_first_prefix (p s : string) :
  Auth.remove_first p (p +:+ s) = s.
Proof.
  destruct (p +:+ s) eqn:Heq; cbn [Auth.remove_first];
    rewrite <- Heq, starts_with_app; apply drop_chars_app.
Qed.

Lemma remove_first_absent (p s : string) :
  (∀ s1 s2, s ≠ s1 +:+ p +:+ s2) →
  Auth.remove_first p s = s.
Proof.
  induction s as [|a s IH]; intros Habs.
  - cbn [Auth.remove_first].
    destruct (Auth.starts_with p "") eqn:Hp; [|done].
    apply starts_with_true in Hp. by destruct (Habs "" _ Hp).
  - cbn [Auth.remove_first].
    destruct (Auth.starts_with p (String a s)) eqn:Hp.
    + apply starts_with_true in Hp. by destruct (Habs "" _ Hp).
    + f_equal. apply IH. intros s1 s2 ->.
      by apply (Habs (String a s1) s2).
Qed.

(** X12. [authenticate]: without an [Authorization] header, or with an
    empty one, the answer is 401 and the token verifier is not consulted.
    With the header ["Bearer " + token] the verifier decides on [token]:
    a payload is stored as the context's user and the chain goes on, a
    failure gives 401. A header in which ["Bearer "] does not occur is
    verified as it is: a bare token is accepted too. *)
Theorem authenticate_verifies_bearer_token
    (verify : string → option Auth.TokenPayload) (c : Auth.AuthContext)
    (token : string) :
  (req_header "Authorization" (Auth.ctx c) = None ∨
   req_header "Authorization" (Auth.ctx c) = Some "" →
   Auth.authenticate verify c = Auth.Json 401 "Unauthorized") ∧
  (req_header "Authorization" (Auth.ctx c) = Some ("Bearer " +:+ token) →
   Auth.authenticate verify c =
   match verify token with
   | Some payload => Auth.Next {| Auth.ctx := Auth.ctx c; Auth.user := Some payload |}
   | None => Auth.Json 401 "Unauthorized"
   end) ∧
  (req_header "Authorization" (Auth.ctx c) = Some token →
   token ≠ "" →
   (∀ s1 s2, token ≠ s1 +:+ "Bearer " +:+ s2) →
   Auth.authenticate verify c =
   match verify token with
   | Some payload => Auth.Next {| Auth.ctx := Auth.ctx c; Auth.user := Some payload |}
   | None => Auth.Json 401 "Unauthorized"
   end).
Proof.
  split; [|split].
  - intros [H | H]; unfold Auth.authenticate; by rewrite H.
  - intros H. unfold Auth.authenticate, Auth.verifyToken. rewrite H.
    rewrite decide_False by discriminate. cbv zeta.
    rewrite remove_first_prefix. by destruct (verify token).
  - intros H Hne Habs. unfold Auth.authenticate, Auth.verifyToken. rewrite H.
    rewrite decide_False by done. cbv zeta.
    rewrite remove_first_absent by done. by destruct (verify token).
Qed.

Lemma authenticate_verifies_bearer_token_witness :
  Auth.authenticate (Auth.verify_only "abc" (Auth.mkTokenPayload "u1" "a@b.c" ["user"]))
    (Auth.incoming ctx0) = Auth.Json 401 "Unauthorized" ∧
  Auth.authenticate (Auth.verify_only "abc" (Auth.mkTokenPayload "u1" "a@b.c" ["user"]))
    (Auth.incoming (Auth.with_authorization "Bearer abc")) =
  Auth.Next {| Auth.ctx := Auth.with_authorization "Bearer abc";
               Auth.user := Some (Auth.mkTokenPayload "u1" "a@b.c" ["user"]) |}.
Proof.
  split.
  - refine (proj1 (authenticate_verifies_bearer_token _ (Auth.incoming ctx0) "")
              _). by left.
  - refine (proj1 (proj2 (authenticate_verifies_bearer_token
                            (Auth.verify_only "abc"
                               (Auth.mkTokenPayload "u1" "a@b.c" ["user"]))
                            (Auth.incoming (Auth.with_authorization "Bearer abc"))
                            "abc")) _).
    reflexivity.
Defined.

Lemma hasRoles_false (userRoles requiredRoles : list string) :
  Auth.hasRoles userRoles requiredRoles = false →
  ∃ role, role ∈ requiredRoles ∧ role ∉ userRoles.
Proof.
  unfold Auth.hasRoles. induction requiredRoles as [|r rs IH]; [done|].
  cbn [forallb]. intros H. apply andb_false_iff in H as [H | H].
  - exists r. split; [by left|]. by apply bool_decide_eq_false_1 in H.
  - destruct (IH H) as (role & Hin & Hnot). exists role. split; [by right | done].
Qed.

(** X13. A route guarded by [authenticate] followed by
    [authorize(requiredRoles)]. The handler is reached only with a user
    that the verifier returned for the token of the request and that has
    every required role. The answer is 403 only for a verified user who
    lacks a required role, and 401 in every other refusal. [authorize]
    on its own, with no user set before it, always answers 401. *)
Theorem guarded_route_outcomes (verify : string → option Auth.TokenPayload)
    (requiredRoles : list string) (c : Context) :
  (∀ c', Auth.chain [Auth.authenticate verify; Auth.authorize requiredRoles]
           (Auth.incoming c) = Auth.Next c' →
         ∃ h payload,
           req_header "Authorization" c = Some h ∧ h ≠ "" ∧
           verify (Auth.remove_first "Bearer " h) = Some payload ∧
           c' = {| Auth.ctx := c; Auth.user := Some payload |} ∧
           ∀ role, role ∈ requiredRoles → role ∈ Auth.roles payload) ∧
  (∀ status message,
     Auth.chain [Auth.authenticate verify; Auth.authorize requiredRoles]
       (Auth.incoming c) = Auth.Json status message →
     (status = 401 ∧ message = "Unauthorized" ∧
      Auth.authenticate verify (Auth.incoming c) = Auth.Json 401 "Unauthorized") ∨
     (status = 403 ∧ message = "Forbidden" ∧
      ∃ h payload role,
        req_header "Authorization" c = Some h ∧
        verify (Auth.remove_first "Bearer " h) = Some payload ∧
        role ∈ requiredRoles ∧ role ∉ Auth.roles payload)) ∧
  Auth.chain [Auth.authorize requiredRoles] (Auth.incoming c)
    = Auth.Json 401 "Unauthorized".
Proof.
  split; [|split; [|done]].
  - intros c'. cbn [Auth.chain]. unfold Auth.authenticate, Auth.verifyToken.
    cbn [Auth.incoming Auth.ctx].
    destruct (req_header "Authorization" c) as [h|]; [|done].
    destruct (decide (h = "")) as [|Hne]; [done|]. cbv zeta.
    destruct (verify (Auth.remove_first "Bearer " h)) as [p|] eqn:Hv; [|done].
    unfold Auth.authorize. cbn [Auth.user].
    destruct (Auth.hasRoles (Auth.roles p) requiredRoles) eqn:Hr; [|done].
    intros [= <-]. exists h, p. repeat split; try done.
    by apply hasRoles_true.
  - intros status message. cbn [Auth.chain].
    unfold Auth.authenticate, Auth.verifyToken. cbn [Auth.incoming Auth.ctx].
    destruct (req_header "Authorization" c) as [h|];
      [|intros [= <- <-]; by left].
    destruct (decide (h = "")) as [|Hne]; [intros [= <- <-]; by left|].
    cbv zeta.
    destruct (verify (Auth.remove_first "Bearer " h)) as [p|] eqn:Hv;
      [|intros [= <- <-]; by left].
    unfold Auth.authorize. cbn [Auth.user].
    destruct (Auth.hasRoles (Auth.roles p) requiredRoles) eqn:Hr; [done|].
    intros [= <- <-]. right. repeat split.
    destruct (hasRoles_false _ _ Hr) as (role & Hin & Hnot).
    by exists h, p, role.
Qed.

Lemma guarded_route_outcomes_witness :
  ∃ h payload,
    req_header "Authorization" (Auth.with_authorization "Bearer abc") = Some h ∧
    h ≠ "" ∧
    Auth.verify_only "abc" (Auth.mkTokenPayload "u1" "a@b.c" ["user"; "admin"])
      (Auth.remove_first "Bearer " h) = Some payload ∧
    {| Auth.ctx := Auth.with_authorization "Bearer abc";
       Auth.user := Some (Auth.mkTokenPayload "u1" "a@b.c" ["user"; "admin"]) |}
      = {| Auth.ctx := Auth.with_authorization "Bearer abc";
           Auth.user := Some payload |} ∧
    ∀ role, role ∈ ["admin"] → role ∈ Auth.roles payload.
Proof.
  refine (proj1 (guarded_route_outcomes
                   (Auth.verify_only "abc"
                      (Auth.mkTokenPayload "u1" "a@b.c" ["user"; "admin"]))
                   ["admin"] (Auth.with_authorization "Bearer abc")) _ _).
  reflexivity.
Defined.

(** X14. The guards of the item routes of [routes/api.router.ts], for a
    request with the header ["Bearer " + token] whose token the verifier
    accepts: [POST /items] goes on exactly when the user's roles contain
    ["user"], [DELETE /items/:id] exactly when they contain ["admin"],
    and the answer is 403 otherwise. Roles are not ordered: an
    administrator without the role ["user"] cannot create an item. *)
Theorem item_routes_require_their_role
    (verify : string → option Auth.TokenPayload) (c : Context)
    (token : string) (payload : Auth.TokenPayload) :
  req_header "Authorization" c = Some ("Bearer " +:+ token) →
  verify token = Some payload →
  Auth.chain (Auth.post_items_guard verify) (Auth.incoming c) =
    (if bool_decide ("user" ∈ Auth.roles payload)
     then Auth.Next {| Auth.ctx := c; Auth.user := Some payload |}
     else Auth.Json 403 "Forbidden") ∧
  Auth.chain (Auth.delete_item_guard verify) (Auth.incoming c) =
    (if bool_decide ("admin" ∈ Auth.roles payload)
     then Auth.Next {| Auth.ctx := c; Auth.user := Some payload |}
     else Auth.Json 403 "Forbidden").
Proof.
  intros Hh Hv.
  assert (Auth.authenticate verify (Auth.incoming c) =
          Auth.Next {| Auth.ctx := c; Auth.user := Some payload |}) as Hauth.
  { unfold Auth.authenticate, Auth.verifyToken. cbn [Auth.incoming Auth.ctx].
    rewrite Hh, decide_False by discriminate. cbv zeta.
    by rewrite remove_first_prefix, Hv. }
  unfold Auth.post_items_guard, Auth.delete_item_guard. cbn [Auth.chain].
  rewrite Hauth. unfold Auth.authorize, Auth.hasRoles.
  cbn [Auth.user forallb]. rewrite !andb_true_r.
  split; by case_bool_decide.
Qed.

Lemma item_routes_require_their_role_witness :
  Auth.chain
    (Auth.post_items_guard
       (Auth.verify_only "abc" (Auth.mkTokenPayload "u1" "a@b.c" ["admin"])))
    (Auth.incoming (Auth.with_authorization "Bearer abc")) =
  (if bool_decide ("user" ∈ Auth.roles (Auth.mkTokenPayload "u1" "a@b.c" ["admin"]))
   then Auth.Next {| Auth.ctx := Auth.with_authorization "Bearer abc";
                     Auth.user := Some (Auth.mkTokenPayload "u1" "a@b.c" ["admin"]) |}
   else Auth.Json 403 "Forbidden").
Proof.
  refine (proj1 (item_routes_require_their_role
                   (Auth.verify_only "abc"
                      (Auth.mkTokenPayload "u1" "a@b.c" ["admin"]))
                   (Auth.with_authorization "Bearer abc") "abc"
                   (Auth.mkTokenPayload "u1" "a@b.c" ["admin"]) _ _));
    reflexivity.
Defined.

(** * Properties of the in-memory job queue *)

Section QueueProperties.

Context {T H : Type}.
Variable truthy : T → bool.

Implicit Types (q : @JobQueue.InMemoryQueue T H) (es : list (@JobQueue.event T H)).

Lemma queue_run_cons (e : JobQueue.event) es q :
  JobQueue.run truthy (e :: es) q =
  ((JobQueue.run truthy es (JobQueue.step truthy e q).1).1,
   match (JobQueue.step truthy e q).2 with
   | Some x => x :: (JobQueue.run truthy es (JobQueue.step truthy e q).1).2
   | None => (JobQueue.run truthy es (JobQueue.step truthy e q).1).2
   end).
Proof. done. Qed.

Lemma enqueued_cons (e : JobQueue.event) es :
  JobQueue.enqueued (e :: es) =
  match e with
  | JobQueue.Enqueue data => data :: JobQueue.enqueued es
  | _ => JobQueue.enqueued es
  end.
Proof. by destruct e. Qed.

(** What one call of [processNext] does to the queue. *)
Lemma processNext_cases q :
  (JobQueue.processNext truthy q = (q, None)) ∨
  (∃ job rest h,
     JobQueue.queue q = job :: rest ∧ JobQueue.processing q = false ∧
     JobQueue.handler q = Some h ∧
     JobQueue.queue (JobQueue.processNext truthy q).1 = rest ∧
     JobQueue.handler (JobQueue.processNext truthy q).1 = Some h ∧
     JobQueue.interval (JobQueue.processNext truthy q).1 = JobQueue.interval q ∧
     JobQueue.processing (JobQueue.processNext truthy q).1 = truthy job ∧
     (JobQueue.processNext truthy q).2 =
       if truthy job then Some (h, job) else None).
Proof.
  unfold JobQueue.processNext.
  destruct (JobQueue.processing q) eqn:Hp; [by left|].
  destruct (JobQueue.queue q) as [|job rest] eqn:Hq; [by left|].
  destruct (JobQueue.handler q) as [h|] eqn:Hh; [|by left].
  right. exists job, rest, h.
  destruct (truthy job); cbn; by rewrite ?Hh.
Qed.

(** X15. The queue is first in, first out, and loses no job on its own:
    at any time the jobs that were in the queue or have been enqueued
    are, in order, the jobs taken out followed by the jobs still queued;
    the jobs handed to a handler are, in order, the jobs taken out that
    are truthy. A job that is not truthy is taken out and never
    handled. *)
Theorem queue_is_first_in_first_out es q :
  ∃ taken,
    JobQueue.queue q ++ JobQueue.enqueued es =
      taken ++ JobQueue.queue (JobQueue.run truthy es q).1 ∧
    (JobQueue.run truthy es q).2.*2 = filter (λ job, truthy job = true) taken.
Proof.
  revert q. induction es as [|e es IH]; intros q.
  - exists []. cbn. by rewrite app_nil_r.
  - rewrite queue_run_cons. cbn [fst snd].
    destruct (IH (JobQueue.step truthy e q).1) as (taken & Hq & Hs).
    rewrite enqueued_cons.
    destruct e as [data|h| | |]; cbn [JobQueue.step fst snd] in *.
    + exists taken. split; [|done].
      cbn [JobQueue.enqueue JobQueue.queue] in Hq.
      rewrite <- Hq. by rewrite <- app_assoc.
    + exists taken. by split.
    + exists taken. by split.
    + destruct (JobQueue.interval q); [|by exists taken].
      destruct (processNext_cases q)
        as [Hno | (job & rest & h & Hqq & _ & _ & Hrest & _ & _ & _ & Hout)].
      * rewrite Hno in *. by exists taken.
      * rewrite Hrest in Hq. rewrite Hout. exists (job :: taken). split.
        -- rewrite Hqq. cbn. by rewrite Hq.
        -- rewrite filter_cons. destruct (truthy job) eqn:Hj.
           ++ rewrite decide_True by done. cbn. by rewrite Hs.
           ++ by rewrite decide_False by done.
    + exists taken. by split.
Qed.

(** X16. Jobs are handled one at a time: a timer tick that finds a
    handler still running starts nothing, so the number of jobs handed
    to handlers never exceeds the number of settled handlers by more
    than one (counting a handler that was already running at the
    start). *)
Theorem queue_handles_one_job_at_a_time es q :
  (length (JobQueue.run truthy es q).2 +
     (if JobQueue.processing q then 1 else 0) <=
   JobQueue.settlements es +
     (if JobQueue.processing (JobQueue.run truthy es q).1 then 1 else 0))%nat ∧
  (length (JobQueue.run truthy es q).2 +
     (if JobQueue.processing q then 1 else 0) <=
   JobQueue.settlements es + 1)%nat.
Proof.
  assert (length (JobQueue.run truthy es q).2 +
            (if JobQueue.processing q then 1 else 0) <=
          JobQueue.settlements es +
            (if JobQueue.processing (JobQueue.run truthy es q).1
             then 1 else 0))%nat as Hinv.
  { revert q. induction es as [|e es IH]; intros q; [cbn; lia|].
    rewrite queue_run_cons. cbn [fst snd].
    specialize (IH (JobQueue.step truthy e q).1).
    unfold JobQueue.settlements in *. rewrite filter_cons.
    destruct e as [data|h| | |]; cbn [JobQueue.step fst snd] in *;
      cbn [JobQueue.is_settled] in *;
      rewrite ?decide_False by done; rewrite ?decide_True by done;
      cbn [JobQueue.enqueue JobQueue.process JobQueue.shutdown
             JobQueue.settle JobQueue.processing] in IH; try lia.
    - destruct (JobQueue.interval q); cbn [fst snd] in *; [|lia].
      destruct (processNext_cases q)
        as [Hno | (job & rest & h & _ & Hp & _ & _ & _ & _ & Hp' & Hout)].
      + rewrite Hno in *. cbn [fst snd] in *. lia.
      + rewrite Hp' in IH. rewrite Hout, Hp.
        destruct (truthy job); cbn [length]; lia.
    - cbn [length]. destruct (JobQueue.processing q); lia. }
  split; [done|].
  destruct (JobQueue.processing (JobQueue.run truthy es q).1); lia.
Qed.

Lemma queue_idle_step (e : JobQueue.event) q :
  JobQueue.is_process e = false →
  JobQueue.interval q = false →
  (JobQueue.step truthy e q).2 = None ∧
  JobQueue.interval (JobQueue.step truthy e q).1 = false ∧
  JobQueue.queue (JobQueue.step truthy e q).1 =
    JobQueue.queue q ++ JobQueue.enqueued [e].
Proof.
  intros He Hi. destruct e; try done; cbn; rewrite ?Hi; cbn;
    by rewrite ?app_nil_r.
Qed.

(** X17. Until [process] is called, and again after [shutdown] until
    the next call of [process], no job is handed to a handler, whatever
    else happens: the jobs stay in the queue and those enqueued
    meanwhile are appended in order. *)
Theorem queue_idle_without_process es q :
  Forall (λ e, JobQueue.is_process e = false) es →
  JobQueue.interval q = false →
  (JobQueue.run truthy es q).2 = [] ∧
  JobQueue.queue (JobQueue.run truthy es q).1 =
    JobQueue.queue q ++ JobQueue.enqueued es.
Proof.
  intros Hes. revert q. induction Hes as [|e es He _ IH]; intros q Hi.
  - cbn. by rewrite app_nil_r.
  - rewrite queue_run_cons. cbn [fst snd].
    destruct (queue_idle_step e q He Hi) as (Ho & Hi' & Hq).
    destruct (IH _ Hi') as [Hs Hq']. rewrite Ho, Hs, Hq', Hq.
    split; [done|]. rewrite <- app_assoc. f_equal.
    rewrite enqueued_cons. destruct e; cbn; by rewrite ?app_nil_r.
Qed.

Lemma queue_step_handler (e : JobQueue.event) q (h : H) :
  JobQueue.is_process e = false →
  JobQueue.handler q = Some h →
  JobQueue.handler (JobQueue.step truthy e q).1 = Some h ∧
  ∀ x, (JobQueue.step truthy e q).2 = Some x → x.1 = h.
Proof.
  intros He Hh. destruct e; try done; cbn [JobQueue.step fst snd]; try done.
  destruct (JobQueue.interval q); [|done].
  destruct (processNext_cases q)
    as [-> | (job & rest & h' & _ & _ & Hh' & _ & Hh'' & _ & _ & Hout)];
    [done|].
  rewrite Hh in Hh'. injection Hh' as <-. split; [done|].
  rewrite Hout. destruct (truthy job); [|done]. by intros x [= <-].
Qed.

(** X18. Every job is handed to the handler given to the latest call
    of [process]: while [process] is not called again, all jobs go to
    the handler that the queue holds. *)
Theorem queue_uses_latest_handler es q (h : H) :
  Forall (λ e, JobQueue.is_process e = false) es →
  Forall (λ x : H * T, x.1 = h)
    (JobQueue.run truthy (JobQueue.Process h :: es) q).2.
Proof.
  intros Hes. rewrite queue_run_cons. cbn [JobQueue.step fst snd].
  assert (JobQueue.handler (JobQueue.process h q) = Some h) as Hh by done.
  revert Hh. generalize (JobQueue.process h q). clear q.
  induction Hes as [|e es He _ IH]; intros q Hh; [by apply Forall_nil|].
  rewrite queue_run_cons. cbn [fst snd].
  destruct (queue_step_handler e q h He Hh) as [Hh' Hout].
  destruct (JobQueue.step truthy e q).2 as [x|]; [|by apply IH].
  apply Forall_cons. split; [by apply Hout | by apply IH].
Qed.

End QueueProperties.

Lemma queue_idle_without_process_witness :
  (JobQueue.run (λ n : nat, negb (n =? 0)%nat)
     [JobQueue.Enqueue 3%nat; JobQueue.Tick; JobQueue.Shutdown;
      JobQueue.Enqueue 4%nat]
     (@JobQueue.create nat string)).2 = [] ∧
  JobQueue.queue
    (JobQueue.run (λ n : nat, negb (n =? 0)%nat)
       [JobQueue.Enqueue 3%nat; JobQueue.Tick; JobQueue.Shutdown;
        JobQueue.Enqueue 4%nat]
       (@JobQueue.create nat string)).1 =
  JobQueue.queue (@JobQueue.create nat string) ++
  JobQueue.enqueued
    [JobQueue.Enqueue 3%nat; JobQueue.Tick; JobQueue.Shutdown;
     JobQueue.Enqueue (H := string) 4%nat].
Proof.
  apply (queue_idle_without_process (λ n : nat, negb (n =? 0)%nat)).
  - repeat (apply Forall_cons_2 || apply Forall_nil_2); reflexivity.
  - reflexivity.
Defined.

Lemma queue_uses_latest_handler_witness :
  Forall (λ x : string * nat, x.1 = "second")
    (JobQueue.run (λ n : nat, negb (n =? 0)%nat)
       [JobQueue.Process "second"; JobQueue.Enqueue 3%nat; JobQueue.Tick;
        JobQueue.Settled; JobQueue.Enqueue 4%nat; JobQueue.Tick]
       (JobQueue.process "first" JobQueue.create)).2.
Proof.
  apply (queue_uses_latest_handler (λ n : nat, negb (n =? 0)%nat)).
  repeat (apply Forall_cons_2 || apply Forall_nil_2); reflexivity.
Defined.

(** * Properties of the service registry *)

Section RegistryProperties.

Context {Meta : Type}.

Implicit Types (m : list (string * Registry.ServiceInfo Meta))
  (s : Registry.ServiceInfo Meta) (k : string).

Lemma map_get_set_eq k s m :
  Registry.map_get k (Registry.map_set k s m) = Some s.
Proof.
  induction m as [|[k' v'] m IH]; cbn.
  - by rewrite decide_True.
  - destruct (decide (k' = k)) as [->|Hne]; cbn.
    + by rewrite decide_True.
    + by rewrite decide_False.
Qed.

Lemma map_get_set_ne k k' s m :
  k' ≠ k → Registry.map_get k' (Registry.map_set k s m) = Registry.map_get k' m.
Proof.
  intros Hne. induction m as [|[k0 v0] m IH]; cbn.
  - by rewrite decide_False.
  - destruct (decide (k0 = k)) as [->|Hk]; cbn.
    + by rewrite !decide_False.
    + destruct (decide (k0 = k')); [done | apply IH].
Qed.

Lemma map_get_None k m : Registry.map_get k m = None ↔ k ∉ m.*1.
Proof.
  induction m as [|[k' v'] m IH]; cbn.
  - split; [intros _; apply not_elem_of_nil | done].
  - rewrite not_elem_of_cons. destruct (decide (k' = k)) as [->|Hne].
    + split; [done | by intros [? _]].
    + rewrite IH. split; [by intros ? | by intros [_ ?]].
Qed.

Lemma map_set_keys k s m :
  (Registry.map_set k s m).*1 =
  if decide (k ∈ m.*1) then m.*1 else m.*1 ++ [k].
Proof.
  induction m as [|[k' v'] m IH]; cbn.
  - by rewrite decide_False by apply not_elem_of_nil.
  - destruct (decide (k' = k)) as [->|Hne]; cbn.
    + by rewrite decide_True by (by left).
    + rewrite IH. destruct (decide (k ∈ m.*1)) as [Hin|Hnin].
      * by rewrite decide_True by (by right).
      * rewrite decide_False; [done|].
        rewrite not_elem_of_cons. by split.
Qed.

Lemma map_set_NoDup k s m :
  NoDup m.*1 → NoDup (Registry.map_set k s m).*1.
Proof.
  intros Hnd. rewrite map_set_keys. destruct (decide (k ∈ m.*1)); [done|].
  apply NoDup_app. split; [done|]. split.
  - intros x Hx Hk. apply list_elem_of_singleton in Hk as ->. done.
  - apply NoDup_singleton.
Qed.

(** X19. [register] stores the service under its id with the heartbeat
    of the registration: looking the id up afterwards gives the
    registered data with [lastHeartbeat = now]; the other services are
    untouched; a known id is overwritten in place and a new one is
    added at the end, so ids stay distinct. *)
Theorem register_stores_service s (now : Z) m :
  NoDup m.*1 →
  (Registry.register s now m).1 = Registry.id s ∧
  Registry.map_get (Registry.id s) (Registry.register s now m).2 =
    Some {| Registry.id := Registry.id s; Registry.name := Registry.name s;
            Registry.url := Registry.url s; Registry.health := Registry.health s;
            Registry.metadata := Registry.metadata s;
            Registry.lastHeartbeat := now |} ∧
  (∀ k, k ≠ Registry.id s →
        Registry.map_get k (Registry.register s now m).2 = Registry.map_get k m) ∧
  (Registry.register s now m).2.*1 =
    (if decide (Registry.id s ∈ m.*1) then m.*1 else m.*1 ++ [Registry.id s]) ∧
  NoDup (Registry.register s now m).2.*1.
Proof.
  intros Hnd. unfold Registry.register. cbn [fst snd].
  split; [done|]. split; [apply map_get_set_eq|].
  split; [intros k Hk; by apply map_get_set_ne|].
  split; [apply map_set_keys | by apply map_set_NoDup].
Qed.

Lemma heartbeat_known k (now : Z) m s :
  Registry.map_get k m = Some s →
  (Registry.heartbeat k now m).1 = true ∧
  Registry.map_get k (Registry.heartbeat k now m).2 =
    Some {| Registry.id := Registry.id s; Registry.name := Registry.name s;
            Registry.url := Registry.url s;
            Registry.health := Registry.health s;
            Registry.metadata := Registry.metadata s;
            Registry.lastHeartbeat := now |} ∧
  (Registry.heartbeat k now m).2.*1 = m.*1 ∧
  ∀ k', k' ≠ k →
        Registry.map_get k' (Registry.heartbeat k now m).2 =
        Registry.map_get k' m.
Proof.
  intros Hs. unfold Registry.heartbeat. rewrite Hs. cbn [fst snd].
  split; [done|]. split; [apply map_get_set_eq|]. split.
  - rewrite map_set_keys. rewrite decide_True; [done|].
    destruct (decide (k ∈ m.*1)) as [|Hnin]; [done|].
    apply map_get_None in Hnin. congruence.
  - intros k' Hk'. by apply map_get_set_ne.
Qed.

(** X20. [heartbeat] on an id that is not registered returns [false]
    and changes nothing. On a registered id it returns [true] and sets
    only the [lastHeartbeat] of that service to [now]: its other
    fields, the other services and the order of the registry stay as
    they were. *)
Theorem heartbeat_refreshes_known_service k (now : Z) m :
  (Registry.map_get k m = None → Registry.heartbeat k now m = (false, m)) ∧
  (∀ s, Registry.map_get k m = Some s →
        (Registry.heartbeat k now m).1 = true ∧
        Registry.map_get k (Registry.heartbeat k now m).2 =
          Some {| Registry.id := Registry.id s; Registry.name := Registry.name s;
                  Registry.url := Registry.url s;
                  Registry.health := Registry.health s;
                  Registry.metadata := Registry.metadata s;
                  Registry.lastHeartbeat := now |} ∧
        (Registry.heartbeat k now m).2.*1 = m.*1 ∧
        ∀ k', k' ≠ k →
              Registry.map_get k' (Registry.heartbeat k now m).2 =
              Registry.map_get k' m).
Proof.
  split.
  - unfold Registry.heartbeat. by intros ->.
  - intros s Hs. by apply heartbeat_known.
Qed.

Lemma map_get_filter (P : string * Registry.ServiceInfo Meta → Prop)
    `{!∀ kv, Decision (P kv)} k m :
  NoDup m.*1 →
  Registry.map_get k (filter P m) =
  match Registry.map_get k m with
  | Some s => if decide (P (k, s)) then Some s else None
  | None => None
  end.
Proof.
  induction m as [|[k' v'] m IH]; intros Hnd; [done|].
  cbn [fmap list_fmap fst] in Hnd. apply NoDup_cons in Hnd as [Hnin Hnd].
  rewrite filter_cons. cbn [Registry.map_get].
  destruct (decide (k' = k)) as [->|Hne].
  - destruct (decide (P (k, v'))) as [HP|HP].
    + cbn [Registry.map_get]. by rewrite decide_True.
    + apply map_get_None. intros Hin. apply Hnin.
      apply list_elem_of_fmap in Hin as ([k0 v0] & -> & Hin).
      apply list_elem_of_filter in Hin as [_ Hin].
      apply list_elem_of_fmap. by exists (k0, v0).
  - destruct (decide (P (k', v'))).
    + cbn [Registry.map_get]. rewrite decide_False by done. by apply IH.
    + by apply IH.
Qed.

(** X21. [cleanupServices] removes exactly the services whose last
    heartbeat is more than 60000 ms old and keeps the others, unchanged
    and in order. A service whose heartbeat was refreshed at [t] is
    therefore still registered after a clean-up at any instant up to
    [t + 60000]. *)
Theorem cleanup_removes_exactly_stale (now : Z) m :
  NoDup m.*1 →
  (∀ k, Registry.map_get k (Registry.cleanupServices now m) =
        match Registry.map_get k m with
        | Some s =>
            if decide (now - Registry.lastHeartbeat s > 60000) then None
            else Some s
        | None => None
        end) ∧
  sublist (Registry.cleanupServices now m) m ∧
  (∀ k t s, Registry.map_get k m = Some s → now <= t + 60000 →
     Registry.map_get k
       (Registry.cleanupServices now (Registry.heartbeat k t m).2) =
     Registry.map_get k (Registry.heartbeat k t m).2).
Proof.
  intros Hnd.
  assert (∀ m', NoDup m'.*1 → ∀ k,
            Registry.map_get k (Registry.cleanupServices now m') =
            match Registry.map_get k m' with
            | Some s =>
                if decide (now - Registry.lastHeartbeat s > 60000) then None
                else Some s
            | None => None
            end) as Hget.
  { intros m' Hnd' k. unfold Registry.cleanupServices.
    rewrite map_get_filter by done.
    destruct (Registry.map_get k m') as [s|]; [|done].
    cbn [snd]. unfold Registry.staleThreshold.
    destruct (decide (now - Registry.lastHeartbeat s > 60000)).
    - by rewrite decide_False by tauto.
    - by rewrite decide_True by done. }
  split; [by apply Hget|]. split; [apply sublist_filter|].
  intros k t s Hs Ht.
  destruct (heartbeat_known k t m s Hs) as (_ & Hk & Hkeys & _).
  rewrite Hget by (by rewrite Hkeys).
  rewrite Hk. cbn [Registry.lastHeartbeat]. by rewrite decide_False by lia.
Qed.

(** X22. [findService] answers with the first service, in the order of
    the registry, that carries the name: it answers nothing exactly when
    no registered service carries it, and of two services with the same
    name the one registered first is returned. *)
Theorem findService_returns_first_match (name' : string) m :
  (Registry.findService name' m = None ↔
   ∀ s, s ∈ Registry.getServices m → Registry.name s ≠ name') ∧
  (∀ s, Registry.findService name' m = Some s →
        Registry.name s = name' ∧ s ∈ Registry.getServices m) ∧
  (∀ l1 s l2, Registry.getServices m = l1 ++ s :: l2 →
              Registry.name s = name' →
              Forall (λ x, Registry.name x ≠ name') l1 →
              Registry.findService name' m = Some s).
Proof.
  unfold Registry.findService. split; [|split].
  - split.
    + intros Hnone s Hin. apply list_elem_of_In in Hin.
      pose proof (find_none _ _ Hnone s Hin) as Hb.
      by apply bool_decide_eq_false_1 in Hb.
    + intros Hall. destruct (find _ _) as [s|] eqn:Hf; [|done].
      apply find_some in Hf as [Hin Hb]. apply bool_decide_eq_true_1 in Hb.
      apply list_elem_of_In in Hin. by destruct (Hall s Hin).
  - intros s Hf. apply find_some in Hf as [Hin Hb].
    apply bool_decide_eq_true_1 in Hb. by apply list_elem_of_In in Hin.
  - intros l1 s l2 -> Hs Hl1. induction Hl1 as [|x l1 Hx _ IH]; cbn.
    + by rewrite bool_decide_eq_true_2.
    + by rewrite bool_decide_eq_false_2.
Qed.

End RegistryProperties.

Lemma register_stores_service_witness :
  Registry.map_get "a"
    (Registry.register (Registry.mkServiceInfo "a" "mail" "http://a" "http://a/health" tt 0)
       500 [("a", Registry.mkServiceInfo "a" "old" "http://o" "http://o/health" tt 100)]).2
  = Some (Registry.mkServiceInfo "a" "mail" "http://a" "http://a/health" tt 500).
Proof.
  refine (proj1 (proj2 (register_stores_service
                          (Registry.mkServiceInfo "a" "mail" "http://a"
                             "http://a/health" tt 0) 500
                          [("a", Registry.mkServiceInfo "a" "old" "http://o"
                                   "http://o/health" tt 100)] _))).
  apply NoDup_singleton.
Defined.

Lemma heartbeat_refreshes_known_service_witness :
  Registry.heartbeat "b" 500
    [("a", Registry.mkServiceInfo "a" "mail" "http://a" "http://a/health" tt 100)]
  = (false,
     [("a", Registry.mkServiceInfo "a" "mail" "http://a" "http://a/health" tt 100)]) ∧
  (Registry.heartbeat "a" 500
     [("a", Registry.mkServiceInfo "a" "mail" "http://a" "http://a/health" tt 100)]).1
  = true.
Proof.
  split.
  - refine (proj1 (heartbeat_refreshes_known_service "b" 500 _) _). reflexivity.
  - refine (proj1 (proj2 (heartbeat_refreshes_known_service "a" 500 _)
                     (Registry.mkServiceInfo "a" "mail" "http://a"
                        "http://a/health" tt 100) _)).
    reflexivity.
Defined.

Lemma cleanup_removes_exactly_stale_witness :
  Registry.map_get "a"
    (Registry.cleanupServices 70000
       [("a", Registry.mkServiceInfo "a" "mail" "http://a" "http://a/health" tt 100);
        ("b", Registry.mkServiceInfo "b" "auth" "http://b" "http://b/health" tt 20000)])
  = match
      Registry.map_get "a"
        [("a", Registry.mkServiceInfo "a" "mail" "http://a" "http://a/health" tt 100);
         ("b", Registry.mkServiceInfo "b" "auth" "http://b" "http://b/health" tt 20000)]
    with
    | Some s => if decide (70000 - Registry.lastHeartbeat s > 60000) then None
                else Some s
    | None => None
    end.
Proof.
  refine (proj1 (cleanup_removes_exactly_stale 70000 _ _) "a").
  apply NoDup_cons. split.
  - rewrite list_elem_of_singleton. discriminate.
  - apply NoDup_singleton.
Defined.

Lemma findService_returns_first_match_witness :
  Registry.findService "mail"
    [("a", Registry.mkServiceInfo "a" "auth" "http://a" "http://a/health" tt 100);
     ("b", Registry.mkServiceInfo "b" "mail" "http://b" "http://b/health" tt 200);
     ("c", Registry.mkServiceInfo "c" "mail" "http://c" "http://c/health" tt 300)]
  = Some (Registry.mkServiceInfo "b" "mail" "http://b" "http://b/health" tt 200).
Proof.
  refine (proj2 (proj2 (findService_returns_first_match "mail" _))
            [Registry.mkServiceInfo "a" "auth" "http://a" "http://a/health" tt 100]
            _ [Registry.mkServiceInfo "c" "mail" "http://c" "http://c/health" tt 300]
            _ _ _).
  - reflexivity.
  - reflexivity.
  - apply Forall_cons_2; [discriminate | apply Forall_nil_2].
Defined.

(** * Properties of the pagination *)

(** X23. For a page size of at least 1 and a total that is not negative,
    [Math.ceil(total / limit)] is the least number of pages that hold
    [total] items, and every item index below [total] lies on exactly one
    page [p] between 1 and that number, at the offsets
    [(p - 1) * limit, ..., (p - 1) * limit + limit - 1] that [skip] and
    [take] select. *)
Theorem pages_cover_every_item (total limit : Z) :
  1 <= limit →
  0 <= total →
  total <= Paging.pages total limit * limit ∧
  (∀ n, total <= n * limit → Paging.pages total limit <= n) ∧
  (∀ i, 0 <= i < total →
     ∃ page,
       1 <= page <= Paging.pages total limit ∧
       Paging.skip page limit <= i < Paging.skip page limit + limit ∧
       ∀ page', Paging.skip page' limit <= i < Paging.skip page' limit + limit →
                page' = page).
Proof.
  intros Hl Ht. unfold Paging.pages, Paging.skip.
  pose proof (Z.div_mod (- total) limit ltac:(lia)) as Hdm.
  pose proof (Z.mod_pos_bound (- total) limit ltac:(lia)) as Hb.
  set (q := (- total) / limit) in *. set (r := (- total) mod limit) in *.
  split; [nia|]. split; [intros n Hn; nia|].
  intros i Hi. exists (i / limit + 1).
  pose proof (Z.div_mod i limit ltac:(lia)) as Hdi.
  pose proof (Z.mod_pos_bound i limit ltac:(lia)) as Hbi.
  set (qi := i / limit) in *. set (ri := i mod limit) in *.
  assert (0 <= qi) by nia.
  split; [split; nia|]. split; [nia|].
  intros page' Hp. nia.
Qed.

Lemma pages_cover_every_item_witness :
  25 <= Paging.pages 25 10 * 10 ∧
  ∃ page, 1 <= page <= Paging.pages 25 10 ∧
          Paging.skip page 10 <= 24 < Paging.skip page 10 + 10 ∧
          ∀ page', Paging.skip page' 10 <= 24 < Paging.skip page' 10 + 10 →
                   page' = page.
Proof.
  destruct (pages_cover_every_item 25 10 ltac:(lia) ltac:(lia)) as (H1 & _ & H3).
  split; [exact H1|]. apply H3. lia.
Defined.
